(** * Hover-to-highlight helpers for Plotly charts (html_report/js/highlight.js)

    A shallow embedding of [setupHighlight], [getTeamColors],
    [defaultLayout], [defaultConfig] and [createTeamLineChart], and the
    properties of them that the report's specification states.

    JavaScript numbers are IEEE 754 doubles, and the code is read over
    Rocq's primitive binary64 floats, which compute what the browser
    computes.  What is said of [getTeamColors] for every team count is
    proved of these doubles, from the specification of their operations
    ([SpecFloat]): each operation returns its exact result rounded to the
    nearest double, and the roundings of one channel add up to less than
    2^-44.

    The code is written over an interface of the arithmetic it uses, which
    has a second instance, the rationals extended by NaN and the
    infinities.  This instance is not the code: it is the formula of the
    specification read over the real numbers, the reference the doubles
    are compared with. *)

From Stdlib Require Import ZArith QArith Qround Qabs Qpower Lqa Floats Lia Ascii.
From stdpp Require Import base strings list gmap pretty.

Set Warnings "-inexact-float,-register-all".
Local Open Scope Z_scope.

(** ** JavaScript numbers *)
Module JS.

(** What [Math.round] returns: an integral number, NaN or an infinity.
    (A negative zero prints as 0 and is not kept apart.) *)
Inductive integral : Type :=
  | INaN
  | IInf (neg : bool)
  | IInt (z : Z).

#[global] Instance integral_eq_dec : EqDecision integral.
Proof. solve_decision. Defined.

(** [Number::toString] on the results of [Math.round]; integers print in
    decimal (below 10^21, where JavaScript turns to exponents). *)
Definition to_string (v : integral) : string :=
  match v with
  | INaN => "NaN"
  | IInf false => "Infinity"
  | IInf true => "-Infinity"
  | IInt z => pretty z
  end.

(** The arithmetic [getTeamColors] uses.  JavaScript's is the instance
    [double]. *)
Class Number (T : Type) := {
  of_Z : Z → T;
  add : T → T → T;
  sub : T → T → T;
  mul : T → T → T;
  div : T → T → T;
  Math_round : T → integral
}.

(** *** Doubles *)

(** An integer as a double (exact below 2^53, as the indices and counts
    of the palette are). *)
Definition double_of_Z (z : Z) : float :=
  match z with
  | Z0 => PrimFloat.zero
  | Zpos _ => PrimFloat.of_uint63 (Uint63.of_Z z)
  | Zneg p => PrimFloat.opp (PrimFloat.of_uint63 (Uint63.of_Z (Zpos p)))
  end.

(** [Math.round x] is the integer nearest to [x], the larger one of two
    that are equally near: floor (x + 1/2), computed on the exact value
    m * 2^e of the double. *)
Definition round_half_up (m e : Z) : Z :=
  if 0 <=? e then m * 2 ^ e
  else (2 * m + 2 ^ (- e)) / 2 ^ (1 - e).

Definition double_round (x : float) : integral :=
  match Prim2SF x with
  | S754_nan => INaN
  | S754_infinity s => IInf s
  | S754_zero _ => IInt 0
  | S754_finite s m e =>
      IInt (round_half_up (if s then Zneg m else Zpos m) e)
  end.

#[global] Instance double : Number float := {
  of_Z := double_of_Z;
  add := PrimFloat.add;
  sub := PrimFloat.sub;
  mul := PrimFloat.mul;
  div := PrimFloat.div;
  Math_round := double_round
}.

(** *** Exact numbers: the rationals with NaN and the two infinities

    The arithmetic of the specification's formula, without rounding.  The
    browser does not compute with it; it is what the doubles are compared
    with. *)

Inductive exact : Type :=
  | XNaN
  | XInf (neg : bool)
  | XFin (q : Q).

Definition Qsign_neg (q : Q) : bool := Qnum q <? 0.
Definition Qis_zero (q : Q) : bool := Qnum q =? 0.

Definition exact_add (x y : exact) : exact :=
  match x, y with
  | XNaN, _ | _, XNaN => XNaN
  | XInf a, XInf b => if eqb a b then XInf a else XNaN
  | XInf a, XFin _ | XFin _, XInf a => XInf a
  | XFin p, XFin q => XFin (p + q)
  end.

Definition exact_opp (x : exact) : exact :=
  match x with
  | XNaN => XNaN
  | XInf a => XInf (negb a)
  | XFin q => XFin (- q)
  end.

Definition exact_sub (x y : exact) : exact := exact_add x (exact_opp y).

Definition exact_mul (x y : exact) : exact :=
  match x, y with
  | XNaN, _ | _, XNaN => XNaN
  | XInf a, XInf b => XInf (xorb a b)
  | XInf a, XFin q | XFin q, XInf a =>
      if Qis_zero q then XNaN else XInf (xorb a (Qsign_neg q))
  | XFin p, XFin q => XFin (p * q)
  end.

(** 0/0 is NaN, x/0 an infinity, as for doubles (with one zero, +0). *)
Definition exact_div (x y : exact) : exact :=
  match x, y with
  | XNaN, _ | _, XNaN => XNaN
  | XInf _, XInf _ => XNaN
  | XInf a, XFin q => XInf (xorb a (Qsign_neg q))
  | XFin _, XInf _ => XFin 0
  | XFin p, XFin q =>
      if Qis_zero q then
        if Qis_zero p then XNaN else XInf (Qsign_neg p)
      else XFin (p / q)
  end.

Definition exact_round (x : exact) : integral :=
  match x with
  | XNaN => INaN
  | XInf a => IInf a
  | XFin q => IInt (Qfloor (q + (1 # 2)))
  end.

#[global] Instance exact_number : Number exact := {
  of_Z := fun z => XFin (inject_Z z);
  add := exact_add;
  sub := exact_sub;
  mul := exact_mul;
  div := exact_div;
  Math_round := exact_round
}.

End JS.

(** ** The values of doubles *)
Module Binary64.

(** Powers of two, and the exponent of the last place of a double below
    [2^e]: 53 bits of precision, subnormals from [2^-1074]. *)
Definition pow2 (e : Z) : Q := (2 ^ e)%Q.

Definition fexp64 (e : Z) : Z := Z.max (e - 53) (-1074).

(** The number a finite double stands for. *)
Definition SFval (f : spec_float) : Q :=
  match f with
  | S754_finite s m e => inject_Z (if s then Zneg m else Zpos m) * pow2 e
  | _ => 0
  end.

(** The doubles that stand for a number: the zeros and the finite ones. *)
Definition SFfinite (f : spec_float) : Prop :=
  match f with
  | S754_zero _ | S754_finite _ _ _ => True
  | _ => False
  end.

(** The exponent of [f], if it has one, is at most [b]. *)
Definition SFexp_le (f : spec_float) (b : Z) : Prop :=
  match f with
  | S754_finite _ _ e => e ≤ b
  | _ => True
  end.

(** The same of a primitive float. *)
Definition val (x : float) : Q := SFval (Prim2SF x).
Definition finite (x : float) : Prop := SFfinite (Prim2SF x).

(** A mantissa, or a number, with the sign [s]. *)
Definition signed (s : bool) (m : Z) : Z := if s then - m else m.
Definition Qsigned (s : bool) (q : Q) : Q := if s then (- q)%Q else q.

(** The place of [y] between [m] and [m + 1], as a rounding records it:
    at [m], or below, at or above the middle. *)
Definition located (y : Q) (m : Z) (l : location) : Prop :=
  match l with
  | loc_Exact => y == inject_Z m
  | loc_Inexact c =>
      (inject_Z m < y ∧ y < inject_Z m + 1)%Q ∧ (y ?= inject_Z m + (1 # 2))%Q = c
  end.

(** [rec'] is [rec] shifted right by [k] bits, [y] being the value [rec]
    places. *)
Definition shifted (k : Z) (rec : shr_record) (y : Q) (rec' : shr_record) : Prop :=
  shr_m rec' = shr_m rec / 2 ^ k ∧ 0 ≤ shr_m rec' ∧
  located (y * pow2 (- k)) (shr_m rec') (loc_of_shr_record rec').

End Binary64.

(** ** The palette: [getTeamColors] *)
Module Palette.
Import JS.

Section Code.
Context (T : Type) `{Number T}.

(** [Math.round(lo + (hi - lo) * ratio)], the expression of each channel. *)
Definition channel (lo hi : Z) (ratio : T) : integral :=
  Math_round (add (of_Z lo) (mul (sub (of_Z hi) (of_Z lo)) ratio)).

(** The body of the loop at index [i]: the three channels. *)
Definition color_at (numTeams i : Z) : integral * integral * integral :=
  let ratio := div (of_Z i) (sub (of_Z numTeams) (of_Z 1)) in
  let r := channel 52 231 ratio in
  let g := channel 152 76 ratio in
  let b := channel 219 60 ratio in
  (r, g, b).

Definition rgb (c : integral * integral * integral) : string :=
  let '(r, g, b) := c in
  "rgb(" +:+ to_string r +:+ "," +:+ to_string g +:+ "," +:+ to_string b +:+ ")".

(** [for (i = 0; i < numTeams; i++) colors.push(...)] *)
Definition team_colors (numTeams : Z) : list (integral * integral * integral) :=
  color_at numTeams <$> seqZ 0 numTeams.

Definition getTeamColors (numTeams : Z) : list string :=
  rgb <$> team_colors numTeams.

End Code.

(** The exact interpolation lo + (hi - lo) * i / (n - 1), and what it is
    for an integer to be nearest to a rational. *)
Definition lerp (lo hi i n : Z) : Q :=
  (inject_Z lo + (inject_Z hi - inject_Z lo) * (inject_Z i / (inject_Z n - 1)))%Q.

Definition nearest (c : Z) (x : Q) : Prop :=
  (Qabs (inject_Z c - x) <= 1 # 2)%Q.

Definition nearestb (c : Z) (x : Q) : bool :=
  Qle_bool (Qabs (inject_Z c - x)) (1 # 2).

(** [Math.round] on an exact value. *)
Definition round (x : Q) : Z := Qfloor (x + (1 # 2)).

(** A colour of channels [r], [g], [b] interpolates at [i] of [n]. *)
Definition interpolates (n i : Z) (c : integral * integral * integral) : Prop :=
  ∃ r g b : Z, c = (IInt r, IInt g, IInt b) ∧
    nearest r (lerp 52 231 i n) ∧
    nearest g (lerp 152 76 i n) ∧
    nearest b (lerp 219 60 i n).

Definition interpolatesb (n i : Z) (c : integral * integral * integral) : bool :=
  match c with
  | (IInt r, IInt g, IInt b) =>
      nearestb r (lerp 52 231 i n) && nearestb g (lerp 152 76 i n)
      && nearestb b (lerp 219 60 i n)
  | _ => false
  end.

(** From one colour to a later one: red does not fall, green and blue do
    not rise. *)
Definition towards_red (c d : integral * integral * integral) : Prop :=
  ∃ r g b r' g' b' : Z,
    c = (IInt r, IInt g, IInt b) ∧ d = (IInt r', IInt g', IInt b') ∧
    r ≤ r' ∧ g' ≤ g ∧ b' ≤ b.

Definition towards_redb (c d : integral * integral * integral) : bool :=
  match c, d with
  | (IInt r, IInt g, IInt b), (IInt r', IInt g', IInt b') =>
      (r <=? r') && (g' <=? g) && (b' <=? b)
  | _, _ => false
  end.

(** The palette of [n] teams interpolates between the two end colours. *)
Definition interpolated (T : Type) `{Number T} (n : Z) : Prop :=
  length (getTeamColors T n) = Z.to_nat n ∧
  (∀ i, 0 ≤ i < n →
     ∃ c, getTeamColors T n !! Z.to_nat i = Some (rgb c) ∧ interpolates n i c) ∧
  getTeamColors T n !! 0%nat = Some "rgb(52,152,219)" ∧
  getTeamColors T n !! Z.to_nat (n - 1) = Some "rgb(231,76,60)".

Definition monotone (T : Type) `{Number T} (n : Z) : Prop :=
  ∀ i j, 0 ≤ i ≤ j ∧ j < n →
    ∃ c d, team_colors T n !! Z.to_nat i = Some c ∧
           team_colors T n !! Z.to_nat j = Some d ∧ towards_red c d.

(** The check of a computed palette [l] of [n] teams. *)
Definition palette_okb (n : Z) (l : list (integral * integral * integral)) : bool :=
  forallb (λ i, match l !! Z.to_nat i with
                | Some c => interpolatesb n i c
                | None => false
                end) (seqZ 0 n)
  && forallb (λ i, match l !! Z.to_nat i, l !! Z.to_nat (i + 1) with
                   | Some c, Some d => towards_redb c d
                   | _, _ => false
                   end) (seqZ 0 (n - 1))
  && bool_decide (NoDup l)
  && bool_decide (l !! 0%nat = Some (IInt 52, IInt 152, IInt 219))
  && bool_decide (l !! Z.to_nat (n - 1) = Some (IInt 231, IInt 76, IInt 60)).

(** The two arithmetics give the same palette of [n] teams. *)
Definition agreeb (n : Z) : bool :=
  bool_decide (team_colors float n = team_colors exact n).

(** A string without the separators of a colour string. *)
Fixpoint undelimited (s : string) : bool :=
  match s with
  | EmptyString => true
  | String c s' =>
      negb (Ascii.eqb c ","%char) && negb (Ascii.eqb c ")"%char) && undelimited s'
  end.

(** A colour whose channels lie between those of the two end colours. *)
Definition in_range (c : integral * integral * integral) : Prop :=
  ∃ r g b : Z, c = (IInt r, IInt g, IInt b) ∧
    52 ≤ r ≤ 231 ∧ 76 ≤ g ≤ 152 ∧ 60 ≤ b ≤ 219.

(** The channel in integer arithmetic: floor ((2 X + (n - 1)) / (2 (n - 1)))
    for X = lo (n - 1) + (hi - lo) i. *)
Definition channelZ (lo hi n i : Z) : Z :=
  (2 * (lo * (n - 1) + (hi - lo) * i) + (n - 1)) / (2 * (n - 1)).



(** Red minus green minus blue: it grows wherever a colour changes along
    the palette. *)
Definition spread (c : integral * integral * integral) : Z :=
  match c with
  | (IInt r, IInt g, IInt b) => r - g - b
  | _ => 0
  end.

(** The team counts above 181 whose colours are pairwise distinct. *)
Definition distinct_above_181 : list Z :=
  [183; 184; 187; 188; 189; 191; 192; 193; 197; 200; 201; 233; 236; 256; 339].

(** Whether one of the [k] colours from index [i] on, [c] being the colour
    at [i], equals its successor. *)
Fixpoint repeats_within (n : Z) (k : nat) (i : Z)
    (c : integral * integral * integral) : bool :=
  match k with
  | O => false
  | S k' =>
      let d := color_at float n (i + 1) in
      if bool_decide (c = d) then true else repeats_within n k' (i + 1) d
  end.

Definition repeatsb (n : Z) : bool :=
  repeats_within n (Z.to_nat (n - 1)) 0 (color_at float n 0).

Definition distinct_checkb (n : Z) : bool :=
  Bool.eqb (bool_decide (n ∈ distinct_above_181)) (negb (repeatsb n)).

End Palette.

(** ** Charts as the charting library holds them *)
Module Plotly.

(** A value of a layout or config setting, or of a data point. *)
Inductive value : Type :=
  | VUndefined
  | VNum (x : float)
  | VStr (s : string)
  | VBool (b : bool)
  | VArr (items : list value)
  | VObj (fields : list (string * value)).

(** An attribute that holds a number when it is set ([None]: undefined). *)
Definition truthy (v : option float) : bool :=
  match v with
  | None => false
  | Some x => negb (PrimFloat.is_zero x || PrimFloat.is_nan x)
  end.

(** [v || d] for a number [d]. *)
Definition or_else (v : option float) (d : float) : float :=
  match v with
  | Some x => if truthy v then x else d
  | None => d
  end.

Record Line := { color : option string; width : option float }.
Record Marker := { size : option float }.

Record Trace := {
  x : list value;
  y : list value;
  name : string;
  type : string;
  mode : string;
  line : option Line;
  marker : option Marker;
  hovertemplate : string;
  opacity : option float
}.

(** The update object [{'opacity': ..., 'line.width': ...}] of one call of
    [Plotly.restyle]: one entry per trace. *)
Record Restyle := { restyle_opacity : list float; restyle_line_width : list float }.

Definition set_width (l : option Line) (w : option float) : option Line :=
  match l, w with
  | Some l, _ => Some {| color := color l; width := w |}
  | None, Some _ => Some {| color := None; width := w |}
  | None, None => None
  end.

(** Modelled from the spec: [Plotly.restyle] is the charting library's
    style-update function, which takes parallel arrays keyed by series
    index for opacity and line width; trace [i] gets entry [i] of each. *)
Definition restyle (data : list Trace) (u : Restyle) : list Trace :=
  imap (λ i t,
    {| x := x t; y := y t; name := name t; type := type t; mode := mode t;
       line := set_width (line t) (restyle_line_width u !! i);
       marker := marker t; hovertemplate := hovertemplate t;
       opacity := restyle_opacity u !! i |}) data.

End Plotly.

(** ** The highlight controller: [setupHighlight] *)
Module Highlight.
Import Plotly.

(** A call returns, or throws. *)
Inductive outcome (A : Type) : Type :=
  | Return (a : A)
  | Throw (error : string).
Arguments Return {A} a.
Arguments Throw {A} error.

(** The variables [setupHighlight] closes its two handlers over. *)
Record Closure := {
  originalOpacities : list float;
  originalLineWidths : list float
}.

Definition fresh : Closure :=
  {| originalOpacities := []; originalLineWidths := [] |}.

(** The argument of a [plotly_hover] handler. *)
Record Point := { curveNumber : nat }.
Record HoverData := { points : list Point }.

(** "Save original values on first hover": the two pushes of the loop over
    the traces. *)
Definition save_original (c : Closure) (data : list Trace) : Closure :=
  {| originalOpacities :=
       originalOpacities c ++ ((λ t, or_else (opacity t) 1) <$> data);
     originalLineWidths :=
       originalLineWidths c ++
       ((λ t, match line t with
              | Some l => or_else (width l) 2
              | None => 2%float
              end) <$> data) |}.

(** "Build update object": the hovered trace emphasised, the others dimmed. *)
Definition highlight_update (numTraces curveNumber : nat) : Restyle :=
  {| restyle_opacity :=
       (λ i, if decide (i = curveNumber) then 1 else 0.15)%float <$> seq 0 numTraces;
     restyle_line_width :=
       (λ i, if decide (i = curveNumber) then 4 else 1.5)%float <$> seq 0 numTraces |}.

(** The [plotly_hover] handler on a chart with traces [data]: the closure
    after the call and the update it passes to [Plotly.restyle]. *)
Definition on_hover (c : Closure) (data : list Trace) (ev : HoverData)
  : outcome (Closure * Restyle) :=
  match points ev with
  | [] => Throw "TypeError: data.points[0] is undefined"
  | p :: _ =>
      let curveNumber := curveNumber p in
      let numTraces := length data in
      let c' :=
        if decide (length (originalOpacities c) = 0%nat)
        then save_original c data else c in
      Return (c', highlight_update numTraces curveNumber)
  end.

(** The [plotly_unhover] handler: "Restore original values". *)
Definition on_unhover (c : Closure) (data : list Trace) : Restyle :=
  let numTraces := length data in
  {| restyle_opacity :=
       (λ i, or_else (originalOpacities c !! i) 1) <$> seq 0 numTraces;
     restyle_line_width :=
       (λ i, or_else (originalLineWidths c !! i) 2) <$> seq 0 numTraces |}.

(** *** One controller on one chart *)

(** The chart's traces, the controller's closure, and the updates passed
    to [Plotly.restyle] so far (oldest first). *)
Record Instance := {
  data : list Trace;
  closure : Closure;
  restyled : list Restyle
}.

Definition start (d : list Trace) : Instance :=
  {| data := d; closure := fresh; restyled := [] |}.

Inductive event : Type :=
  | Hover (k : nat)              (* the pointer enters trace [k] *)
  | Unhover                      (* the pointer leaves *)
  | Redraw (d : list Trace).     (* the page replaces the chart's traces *)

Definition hover_data (k : nat) : HoverData :=
  {| points := [ {| curveNumber := k |} ] |}.

Section Machine.
(** The library's [restyle], the way it changes the traces. *)
Context (apply_restyle : list Trace → Restyle → list Trace).

Definition step (s : Instance) (e : event) : Instance :=
  match e with
  | Hover k =>
      match on_hover (closure s) (data s) (hover_data k) with
      | Return (c', u) =>
          {| data := apply_restyle (data s) u; closure := c';
             restyled := restyled s ++ [u] |}
      | Throw _ => s
      end
  | Unhover =>
      let u := on_unhover (closure s) (data s) in
      {| data := apply_restyle (data s) u; closure := closure s;
         restyled := restyled s ++ [u] |}
  | Redraw d =>
      {| data := d; closure := closure s; restyled := restyled s |}
  end.

Definition run (s : Instance) (es : list event) : Instance :=
  foldl step s es.

End Machine.

(** The state of the controller: primed once the snapshot is taken. *)
Definition primed (c : Closure) : bool :=
  negb (bool_decide (length (originalOpacities c) = 0%nat)).

Definition pointer_only (e : event) : bool :=
  match e with
  | Hover _ | Unhover => true
  | Redraw _ => false
  end.

(** The value a series shows: the attribute, or the library's default
    (opacity 1, line width 2) where it is not set. *)
Definition shown_opacity (t : Trace) : float :=
  match opacity t with
  | Some o => o
  | None => 1%float
  end.

Definition shown_width (t : Trace) : float :=
  match line t with
  | Some {| width := Some w |} => w
  | _ => 2%float
  end.

(** No attribute that is set is 0 or NaN. *)
Definition set_values_truthy (t : Trace) : bool :=
  match opacity t with Some _ => truthy (opacity t) | None => true end
  &&
  match line t with
  | Some {| width := Some w |} => truthy (Some w)
  | _ => true
  end.

(** The update that emphasises trace [k] of [n] and dims the others. *)
Definition emphasised (n k : nat) : Restyle :=
  {| restyle_opacity := <[k := 1%float]> (replicate n 0.15%float);
     restyle_line_width := <[k := 4%float]> (replicate n 1.5%float) |}.

(** The update that shows every series as it was. *)
Definition as_shown (d : list Trace) : Restyle :=
  {| restyle_opacity := shown_opacity <$> d;
     restyle_line_width := shown_width <$> d |}.

(** *** The page *)

Inductive Element : Type :=
  | Plain                                   (* an element that holds no chart *)
  | Graph (d : list Trace) (controllers : list Closure).

(** The document by element id and the console's warnings (oldest first).
    A controller of a chart stands for the two listeners, on
    [plotly_hover] and [plotly_unhover], of one call of [setupHighlight]. *)
Record Page := {
  document : gmap string Element;
  console : list string
}.

Definition setupHighlight (plotId : string) (p : Page) : outcome Page :=
  match document p !! plotId with
  | None =>
      Return {| document := document p;
                console := console p ++ ["Plot element not found: " +:+ plotId] |}
  | Some Plain => Throw "TypeError: plotDiv.on is not a function"
  | Some (Graph d cs) =>
      Return {| document := <[plotId := Graph d (cs ++ [fresh])]> (document p);
                console := console p |}
  end.

(** The listeners registered on the page's charts. *)
Definition subscriptions (p : Page) : list (string * string) :=
  map_fold (λ id e acc,
    match e with
    | Plain => acc
    | Graph _ cs =>
        flat_map (λ _, [(id, "plotly_hover"); (id, "plotly_unhover")]) cs ++ acc
    end) [] (document p).

(** [plotIds.forEach(function(id) { setupHighlight(id); })]: the page the
    loop reaches and, when a call throws, its error; the throw ends the
    loop with the calls before it done. *)
Fixpoint setupAllHighlights (plotIds : list string) (p : Page)
  : Page * option string :=
  match plotIds with
  | [] => (p, None)
  | id :: rest =>
      match setupHighlight id p with
      | Return p' => setupAllHighlights rest p'
      | Throw e => (p, Some e)
      end
  end.

(** The warning of [setupHighlight] for an identifier. *)
Definition warning (plotId : string) : string :=
  "Plot element not found: " +:+ plotId.

Definition missing (p : Page) (plotId : string) : bool :=
  match document p !! plotId with
  | None => true
  | Some _ => false
  end.

Definition plain (p : Page) (plotId : string) : bool :=
  match document p !! plotId with
  | Some Plain => true
  | _ => false
  end.

(** How often [plotId] occurs in a list of identifiers. *)
Definition occurrences (plotId : string) (plotIds : list string) : nat :=
  length (filter (λ id, id = plotId) plotIds).

(** An element after calls of [setupHighlight]: the same traces, and new
    controllers after the ones it had. *)
Definition grown (e e' : option Element) : Prop :=
  match e, e' with
  | None, None => True
  | Some Plain, Some Plain => True
  | Some (Graph d cs), Some (Graph d' cs') =>
      d' = d ∧ ∃ n, cs' = cs ++ replicate n fresh
  | _, _ => False
  end.

(** The element after [n] calls of [setupHighlight] for it. *)
Definition after_calls (n : nat) (e : option Element) : option Element :=
  match e with
  | Some (Graph d cs) => Some (Graph d (cs ++ replicate n fresh))
  | _ => e
  end.

(** A snapshot as the hover handler leaves it: as many widths as
    opacities, and no entry 0 or NaN. *)
Definition closure_ok (c : Closure) : Prop :=
  length (originalOpacities c) = length (originalLineWidths c) ∧
  Forall (λ o, truthy (Some o) = true) (originalOpacities c) ∧
  Forall (λ w, truthy (Some w) = true) (originalLineWidths c).

(** An array cut to [n] entries, or filled up to [n] with [d]. *)
Definition resize (n : nat) (d : float) (l : list float) : list float :=
  take n l ++ replicate (n - length l) d.

End Highlight.

(** ** The chart factory: [createTeamLineChart] *)
Module Chart.
Import Plotly.

Definition defaultLayout : gmap string value :=
  list_to_map [
    ("font", VObj [("family",
       VStr "-apple-system, BlinkMacSystemFont, 'Segoe UI', Roboto, sans-serif")]);
    ("paper_bgcolor", VStr "rgba(0,0,0,0)");
    ("plot_bgcolor", VStr "rgba(0,0,0,0)");
    ("margin", VObj [("t", VNum 50); ("r", VNum 30); ("b", VNum 50); ("l", VNum 60)]);
    ("hovermode", VStr "closest");
    ("legend", VObj [("orientation", VStr "v"); ("x", VNum 1.02); ("y", VNum 1);
                     ("bgcolor", VStr "rgba(255,255,255,0.9)");
                     ("bordercolor", VStr "#ddd"); ("borderwidth", VNum 1)])
  ].

Definition defaultConfig : gmap string value :=
  list_to_map [
    ("responsive", VBool true);
    ("displayModeBar", VBool true);
    ("modeBarButtonsToRemove", VArr [VStr "lasso2d"; VStr "select2d"]);
    ("displaylogo", VBool false)
  ].

(** [Object.assign(target, ...sources)]: the own properties of each source
    that is an object are copied over the target's, in order; a source that
    is undefined is skipped. *)
Definition Object_assign (target : gmap string value)
    (sources : list (option (gmap string value))) : gmap string value :=
  foldl (λ acc src, match src with Some o => o ∪ acc | None => acc end)
        target sources.

Record Team := { team_name : string; team_y : list value; team_color : string }.

Record ChartData := {
  data_x : list value;
  teams : list Team;
  xLabel : string;
  yLabel : string
}.

(** The call [Plotly.newPlot(plotId, traces, fullLayout, defaultConfig)];
    when the chart is drawn, [setupHighlight(plotId)] follows. *)
Record NewPlot := {
  plot_id : string;
  plot_traces : list Trace;
  plot_layout : gmap string value;
  plot_config : gmap string value
}.

Definition team_trace (data : ChartData) (team : Team) : Trace :=
  {| x := data_x data;
     y := team_y team;
     name := team_name team;
     type := "scatter";
     mode := "lines+markers";
     line := Some {| color := Some (team_color team); width := Some 2%float |};
     marker := Some {| size := Some 6%float |};
     hovertemplate :=
       "<b>" +:+ team_name team +:+ "</b><br>" +:+
       xLabel data +:+ ": %{x}<br>" +:+
       yLabel data +:+ ": %{y:.1f}<extra></extra>";
     opacity := None |}.

Definition createTeamLineChart (plotId : string) (data : ChartData)
    (layout : option (gmap string value)) : NewPlot :=
  let traces := team_trace data <$> teams data in
  let fullLayout := Object_assign ∅ [Some defaultLayout; layout] in
  {| plot_id := plotId; plot_traces := traces;
     plot_layout := fullLayout; plot_config := defaultConfig |}.

(** [sub] occurs in [s]. *)
Definition contains (s sub : string) : Prop :=
  ∃ before after, s = before +:+ sub +:+ after.

End Chart.

(** ** Sample charts *)
Module Samples.
Import Plotly Highlight Chart.

Definition scores : ChartData :=
  {| data_x := [VNum 1; VNum 2; VNum 3];
     teams :=
       [ {| team_name := "Aces"; team_y := [VNum 101.5; VNum 88; VNum 120.25];
            team_color := "rgb(52,152,219)" |};
         {| team_name := "Bears"; team_y := [VNum 97; VNum 110.5; VNum 76];
            team_color := "rgb(142,114,140)" |};
         {| team_name := "Colts"; team_y := [VNum 64; VNum 99; VNum 130];
            team_color := "rgb(231,76,60)" |} ];
     xLabel := "Week";
     yLabel := "Points" |}.

Definition three_traces : list Trace :=
  plot_traces (createTeamLineChart "scores" scores None).

(** A trace drawn with opacity 0. *)
Definition transparent (t : Trace) : Trace :=
  {| x := x t; y := y t; name := name t; type := type t; mode := mode t;
     line := line t; marker := marker t; hovertemplate := hovertemplate t;
     opacity := Some 0%float |}.

Definition one_hidden : list Trace :=
  match three_traces with
  | t :: rest => transparent t :: rest
  | [] => []
  end.

(** A page that holds the chart of these traces at "scores". *)
Definition one_chart : Page :=
  {| document := {[ "scores" := Graph three_traces [] ]}; console := [] |}.

(** A page with two charts and, between them, an element that is none. *)
Definition with_header : Page :=
  {| document :=
       {[ "scores" := Graph three_traces [];
          "header" := Plain;
          "trades" := Graph one_hidden [] ]};
     console := [] |}.

End Samples.

(** ** Properties of the palette *)
Module PaletteFacts.
Import JS Palette.

(** [Math.round] on doubles: halves go up, also below zero; NaN and the
    infinities stay. *)
Lemma Math_round_examples :
  Math_round 2.5%float = IInt 3 ∧ Math_round (-2.5)%float = IInt (-2) ∧
  Math_round 141.5%float = IInt 142 ∧
  Math_round 0x1.fffffffffffffp-2%float = IInt 0 ∧
  Math_round PrimFloat.nan = INaN ∧
  Math_round PrimFloat.infinity = IInf false.
Proof. repeat split; vm_compute; reflexivity. Qed.

Lemma nearestb_spec c x : nearestb c x = true ↔ nearest c x.
Proof. unfold nearestb, nearest. apply Qle_bool_iff. Qed.

Lemma floor_half_nearest (x : Q) : nearest (Qfloor (x + (1 # 2))) x.
Proof.
  unfold nearest. apply Qabs_Qle_condition.
  pose proof (Qfloor_le (x + (1 # 2))) as Hlo.
  pose proof (Qlt_floor (x + (1 # 2))) as Hhi.
  rewrite inject_Z_plus in Hhi. change (inject_Z 1) with 1%Q in Hhi.
  split; lra.
Qed.

Lemma exact_ratio (n i : Z) :
  2 ≤ n →
  div (of_Z i) (sub (of_Z n) (of_Z 1))
  = XFin (inject_Z i / (inject_Z n - 1))%Q.
Proof.
  intros Hn. cbn. unfold Qis_zero. cbn.
  destruct (Z.eqb_spec (n * 1 + - (1) * 1) 0) as [E|_]; [lia|]. reflexivity.
Qed.

Lemma channel_exact (lo hi n i : Z) :
  2 ≤ n →
  channel exact lo hi (div (of_Z i) (sub (of_Z n) (of_Z 1)))
  = IInt (Qfloor (lerp lo hi i n + (1 # 2))).
Proof. intros Hn. rewrite exact_ratio by done. reflexivity. Qed.

Lemma lerp_floor (lo hi n i : Z) :
  2 ≤ n → Qfloor (lerp lo hi i n + (1 # 2)) = channelZ lo hi n i.
Proof.
  intros Hn. unfold channelZ. rewrite Zdiv_Qdiv.
  apply Qfloor_comp. unfold lerp.
  rewrite !inject_Z_plus, !inject_Z_mult, !inject_Z_plus, !inject_Z_mult.
  unfold Z.sub. rewrite !inject_Z_plus, !inject_Z_opp.
  change (inject_Z 2) with 2%Q. change (inject_Z 1) with 1%Q.
  assert (¬ (inject_Z n - 1 == 0)%Q) as Hne.
  { unfold Qeq. cbn. lia. }
  field. exact Hne.
Qed.

Lemma color_at_exact (n i : Z) :
  2 ≤ n →
  color_at exact n i
  = (IInt (channelZ 52 231 n i), IInt (channelZ 152 76 n i),
     IInt (channelZ 219 60 n i)).
Proof.
  intros Hn. unfold color_at; cbv zeta.
  by rewrite !channel_exact, !lerp_floor.
Qed.

Lemma team_colors_length T `{Number T} (n : Z) :
  length (team_colors T n) = Z.to_nat n.
Proof. unfold team_colors. by rewrite length_fmap, length_seqZ. Qed.

Lemma getTeamColors_length T `{Number T} (n : Z) :
  length (getTeamColors T n) = Z.to_nat n.
Proof. unfold getTeamColors. by rewrite length_fmap, team_colors_length. Qed.

Lemma team_colors_lookup T `{Number T} (n i : Z) :
  0 ≤ i < n → team_colors T n !! Z.to_nat i = Some (color_at T n i).
Proof.
  intros Hi. unfold team_colors. rewrite list_lookup_fmap.
  rewrite (lookup_seqZ_lt 0 n (Z.to_nat i)) by lia.
  cbn. f_equal. f_equal. lia.
Qed.

Lemma getTeamColors_lookup T `{Number T} (n i : Z) :
  0 ≤ i < n → getTeamColors T n !! Z.to_nat i = Some (rgb (color_at T n i)).
Proof.
  intros Hi. unfold getTeamColors.
  by rewrite list_lookup_fmap, team_colors_lookup.
Qed.

(** The channels at the two ends, and their order along the palette. *)
Lemma channelZ_first (lo hi n : Z) : 2 ≤ n → channelZ lo hi n 0 = lo.
Proof.
  intros Hn. unfold channelZ. symmetry.
  apply Z.div_unique with (r := n - 1); lia.
Qed.

Lemma channelZ_last (lo hi n : Z) : 2 ≤ n → channelZ lo hi n (n - 1) = hi.
Proof.
  intros Hn. unfold channelZ. symmetry.
  apply Z.div_unique with (r := n - 1); lia.
Qed.

Lemma channelZ_up (lo hi n i j : Z) :
  2 ≤ n → lo ≤ hi → i ≤ j → channelZ lo hi n i ≤ channelZ lo hi n j.
Proof.
  intros Hn Hc Hij. unfold channelZ.
  apply Z.div_le_mono; [lia|]. nia.
Qed.

Lemma channelZ_down (lo hi n i j : Z) :
  2 ≤ n → hi ≤ lo → i ≤ j → channelZ lo hi n j ≤ channelZ lo hi n i.
Proof.
  intros Hn Hc Hij. unfold channelZ.
  apply Z.div_le_mono; [lia|]. nia.
Qed.

(** A check over an interval of team counts, for statements settled by
    evaluation. *)
Lemma forallb_seqZ (P : Z → bool) (m len : Z) :
  forallb P (seqZ m len) = true → ∀ n, m ≤ n < m + len → P n = true.
Proof.
  intros Hall n Hn. rewrite forallb_forall in Hall. apply Hall.
  apply list_elem_of_In, elem_of_seqZ. lia.
Qed.

(** *** The colour strings tell the channels apart *)

Lemma pretty_N_go_undelimited (x : N) (s : string) :
  undelimited s = true → undelimited (pretty_N_go x s) = true.
Proof.
  revert s. induction (N.lt_wf_0 x) as [x _ IH]; intros s Hs.
  destruct (decide (x = 0)%N) as [->|Hx]; [by rewrite pretty_N_go_0|].
  rewrite pretty_N_go_step by lia.
  apply IH; [apply N.div_lt; lia|].
  cbn [undelimited]. rewrite Hs.
  unfold pretty_N_char. by repeat case_match.
Qed.

Lemma pretty_Z_undelimited (z : Z) : undelimited (pretty z) = true.
Proof.
  assert (∀ p : positive, undelimited (pretty p) = true) as Hpos.
  { intros p. unfold pretty, pretty_positive, pretty, pretty_N.
    case_decide; [done|]. by apply pretty_N_go_undelimited. }
  destruct z as [|p|p]; [done|apply Hpos|].
  change (pretty (Z.neg p)) with ("-" +:+ pretty p).
  cbn. apply Hpos.
Qed.

Lemma split_at_delimiter (c : ascii) (s s' t t' : string) :
  c = ","%char ∨ c = ")"%char →
  undelimited s = true → undelimited s' = true →
  s +:+ String c t = s' +:+ String c t' → s = s' ∧ t = t'.
Proof.
  intros Hc. revert s'.
  induction s as [|a s IH]; intros [|a' s'] Hs Hs' E; cbn in *.
  - by injection E.
  - injection E as -> _. destruct Hc as [->| ->]; cbn in Hs'; done.
  - injection E as -> _. destruct Hc as [->| ->]; cbn in Hs; done.
  - injection E as -> E.
    apply andb_prop in Hs as [_ Hs]. apply andb_prop in Hs' as [_ Hs'].
    destruct (IH s' Hs Hs' E) as [-> ->]. done.
Qed.

Lemma rgb_inj (r g b r' g' b' : Z) :
  rgb (IInt r, IInt g, IInt b) = rgb (IInt r', IInt g', IInt b') →
  (r, g, b) = (r', g', b').
Proof.
  unfold rgb, to_string. intros E. cbn in E. injection E as E.
  apply split_at_delimiter in E as [Er E]; auto using pretty_Z_undelimited.
  apply split_at_delimiter in E as [Eg E]; auto using pretty_Z_undelimited.
  assert (pretty b +:+ ")" = pretty b' +:+ ")") as E' by exact E.
  apply (split_at_delimiter ")"%char _ _ "" "") in E' as [Eb _];
    auto using pretty_Z_undelimited.
  by rewrite (inj pretty _ _ Er), (inj pretty _ _ Eg), (inj pretty _ _ Eb).
Qed.

Lemma getTeamColors_NoDup T `{Number T} (n : Z) :
  (∀ c, c ∈ team_colors T n → ∃ r g b, c = (IInt r, IInt g, IInt b)) →
  NoDup (team_colors T n) → NoDup (getTeamColors T n).
Proof.
  intros Hint Hnd. unfold getTeamColors.
  apply NoDup_fmap_2_strong; [|done].
  intros c d Hc Hd E.
  destruct (Hint c Hc) as (r & g & b & ->).
  destruct (Hint d Hd) as (r' & g' & b' & ->).
  apply rgb_inj in E. by simplify_eq.
Qed.

(** *** Order along the palette *)

Lemma towards_redb_spec c d : towards_redb c d = true ↔ towards_red c d.
Proof.
  unfold towards_redb, towards_red. split.
  - destruct c as [[[| |r] [| |g]] [| |b]]; try done.
    destruct d as [[[| |r'] [| |g']] [| |b']]; try done.
    rewrite !andb_true_iff, !Z.leb_le. intros [[? ?] ?].
    by exists r, g, b, r', g', b'.
  - intros (r & g & b & r' & g' & b' & -> & -> & ? & ? & ?).
    rewrite !andb_true_iff, !Z.leb_le. done.
Qed.

Lemma towards_red_trans c d e :
  towards_red c d → towards_red d e → towards_red c e.
Proof.
  intros (r & g & b & r' & g' & b' & -> & -> & ? & ? & ?).
  intros (r1 & g1 & b1 & r2 & g2 & b2 & E & -> & ? & ? & ?).
  simplify_eq. exists r, g, b, r2, g2, b2. repeat split; lia.
Qed.

Lemma towards_red_refl_l c d : towards_red c d → towards_red c c.
Proof.
  intros (r & g & b & _ & _ & _ & -> & _).
  exists r, g, b, r, g, b. repeat split; lia.
Qed.

Lemma towards_red_refl_r c d : towards_red c d → towards_red d d.
Proof.
  intros (_ & _ & _ & r & g & b & _ & -> & _).
  exists r, g, b, r, g, b. repeat split; lia.
Qed.

(** Steps from each colour to the next give the order of any two. *)
Lemma towards_red_steps (f : Z → integral * integral * integral) (n : Z) :
  2 ≤ n →
  (∀ i, 0 ≤ i < n - 1 → towards_red (f i) (f (i + 1))) →
  ∀ i j, 0 ≤ i ≤ j ∧ j < n → towards_red (f i) (f j).
Proof.
  intros Hn Hstep i j [[Hi Hij] Hj].
  replace j with (i + Z.of_nat (Z.to_nat (j - i))) in * by lia.
  induction (Z.to_nat (j - i)) as [|k IH].
  - replace (i + Z.of_nat 0) with i in * by lia.
    destruct (decide (i < n - 1)).
    + eapply towards_red_refl_l, (Hstep i); lia.
    + replace i with ((i - 1) + 1) by lia.
      eapply towards_red_refl_r, (Hstep (i - 1)); lia.
  - eapply towards_red_trans; [apply IH; lia|].
    replace (i + Z.of_nat (S k)) with (i + Z.of_nat k + 1) in * by lia.
    apply Hstep. lia.
Qed.

Lemma monotone_exact (n : Z) : 2 ≤ n → monotone exact n.
Proof.
  intros Hn i j [[Hi Hij] Hj].
  exists (color_at exact n i), (color_at exact n j).
  rewrite !team_colors_lookup by lia. split; [done|]. split; [done|].
  rewrite !color_at_exact by done.
  eexists _, _, _, _, _, _. split; [done|]. split; [done|].
  split; [apply channelZ_up; lia|].
  split; apply channelZ_down; lia.
Qed.

(** *** Distinct colours *)

Lemma channelZ_red_strict (n i j : Z) :
  2 ≤ n ≤ 180 → i < j → channelZ 52 231 n i < channelZ 52 231 n j.
Proof.
  intros Hn Hij. unfold channelZ.
  apply Z.lt_le_trans with
    ((2 * (52 * (n - 1) + (231 - 52) * i) + (n - 1) + 1 * (2 * (n - 1)))
       / (2 * (n - 1))).
  - rewrite Z.div_add by lia. lia.
  - apply Z.div_le_mono; lia.
Qed.

Lemma team_colors_exact_integral (n : Z) (c : integral * integral * integral) :
  2 ≤ n → c ∈ team_colors exact n → ∃ r g b, c = (IInt r, IInt g, IInt b).
Proof.
  intros Hn Hc. unfold team_colors in Hc.
  apply list_elem_of_fmap in Hc as (i & -> & _).
  rewrite color_at_exact by done. eauto.
Qed.

Lemma team_colors_exact_NoDup (n : Z) :
  2 ≤ n ≤ 180 → NoDup (team_colors exact n).
Proof.
  intros Hn. unfold team_colors.
  apply NoDup_fmap_2_strong; [|apply NoDup_seqZ].
  intros i j _ _ E. rewrite !color_at_exact in E by lia.
  injection E as E _ _.
  destruct (Z.lt_trichotomy i j) as [Hlt|[->|Hlt]]; [|done|];
    apply (channelZ_red_strict n) in Hlt; lia.
Qed.

(** *** A computed palette that passes the check *)

Lemma interpolatesb_spec n i c : interpolatesb n i c = true → interpolates n i c.
Proof.
  unfold interpolatesb, interpolates.
  destruct c as [[[| |r] [| |g]] [| |b]]; try done.
  rewrite !andb_true_iff, !nearestb_spec. intros [[? ?] ?].
  by exists r, g, b.
Qed.

Lemma palette_okb_sound T `{Number T} (n : Z) :
  2 ≤ n → palette_okb n (team_colors T n) = true →
  interpolated T n ∧ monotone T n ∧ NoDup (getTeamColors T n).
Proof.
  intros Hn Hok. unfold palette_okb in Hok.
  rewrite !andb_true_iff, !bool_decide_eq_true in Hok.
  destruct Hok as [[[[Hint Hmono] Hnd] Hfirst] Hlast].
  assert (∀ i, 0 ≤ i < n → interpolates n i (color_at T n i)) as Hint'.
  { intros i Hi. apply (forallb_seqZ _ _ _ Hint i) in Hi as Hc.
    rewrite team_colors_lookup in Hc by lia.
    by apply interpolatesb_spec. }
  split; [|split].
  - split; [apply getTeamColors_length|]. split; [|split].
    + intros i Hi. exists (color_at T n i).
      rewrite getTeamColors_lookup by lia. auto.
    + unfold getTeamColors. by rewrite list_lookup_fmap, Hfirst.
    + unfold getTeamColors. by rewrite list_lookup_fmap, Hlast.
  - intros i j Hij. exists (color_at T n i), (color_at T n j).
    rewrite !team_colors_lookup by lia. split; [done|]. split; [done|].
    apply (towards_red_steps (color_at T n) n); [done| |done].
    intros k Hk. apply (forallb_seqZ _ _ _ Hmono k) in Hk as Hc.
    rewrite !team_colors_lookup in Hc by lia.
    by apply towards_redb_spec.
  - apply getTeamColors_NoDup; [|done].
    intros c Hc. unfold team_colors in Hc.
    apply list_elem_of_fmap in Hc as (i & -> & Hi).
    apply elem_of_seqZ in Hi.
    destruct (Hint' i) as (r & g & b & -> & _); [lia|]. eauto.
Qed.

(** Doubles, for the palettes of 2 to 181 teams. *)
Lemma double_palette_checked (n : Z) :
  2 ≤ n ≤ 181 → palette_okb n (team_colors float n) = true.
Proof.
  intros Hn.
  apply (forallb_seqZ (λ n, palette_okb n (team_colors float n)) 2 180);
    [|lia].
  vm_compute. reflexivity.
Qed.

(** Doubles and exact numbers give the same palettes of up to 106 teams. *)
Lemma double_agrees_with_exact (n : Z) :
  n ≤ 106 → getTeamColors float n = getTeamColors exact n.
Proof.
  intros Hn. unfold getTeamColors. f_equal.
  destruct (decide (n ≤ 0)) as [Hle|Hgt].
  - unfold team_colors. by rewrite !seqZ_nil by done.
  - assert (forallb agreeb (seqZ 1 106) = true) as Hall
      by (vm_compute; reflexivity).
    apply (bool_decide_eq_true_1 _), (forallb_seqZ agreeb _ _ Hall n). lia.
Qed.

(** *** What the specification says of the palette

    (What it says of every team count from 2 on is proved of the doubles
    in [PaletteDoubles], below.) *)

(** C3. [getTeamColors(1)] divides 0 by 0: the ratio is NaN, and the one
    colour returned is "rgb(NaN,NaN,NaN)", not the start colour
    "rgb(52,152,219)". *)
Theorem getTeamColors_one :
  PrimFloat.is_nan (div (of_Z 0) (sub (of_Z 1) (of_Z 1))) = true ∧
  getTeamColors float 1 = ["rgb(NaN,NaN,NaN)"] ∧
  getTeamColors exact 1 = ["rgb(NaN,NaN,NaN)"] ∧
  getTeamColors float 1 ≠ ["rgb(52,152,219)"].
Proof. repeat split; [vm_compute; reflexivity..|]. vm_compute. discriminate. Qed.

(** C5, as stated, fails: of 1000 colours the first two are the same. *)
Lemma getTeamColors_1000_repeats :
  getTeamColors float 1000 !! 0%nat = Some "rgb(52,152,219)" ∧
  getTeamColors float 1000 !! 1%nat = Some "rgb(52,152,219)" ∧
  ¬ NoDup (getTeamColors float 1000).
Proof.
  assert (getTeamColors float 1000 !! 0%nat = Some "rgb(52,152,219)" ∧
          getTeamColors float 1000 !! 1%nat = Some "rgb(52,152,219)") as [E0 E1].
  { rewrite (getTeamColors_lookup float 1000 0),
      (getTeamColors_lookup float 1000 1) by lia.
    split; vm_compute; reflexivity. }
  split; [done|]. split; [done|]. intros Hnd.
  by pose proof (NoDup_lookup _ 0 1 _ Hnd E0 E1).
Qed.

(** C10. [getTeamColors(0)] returns the empty array: the loop runs no
    iteration, so no ratio is computed, whatever the arithmetic. *)
Theorem getTeamColors_zero T `{Number T} :
  length (seqZ 0 0) = 0%nat ∧ team_colors T 0 = [] ∧ getTeamColors T 0 = [].
Proof. done. Qed.

End PaletteFacts.

(** ** Properties of the highlight controller *)
Module HighlightFacts.
Import Plotly Highlight Samples.
Local Open Scope nat_scope.

(** One value at [k] and another elsewhere, index by index and as an
    update in place. *)
Lemma fmap_seq_insert {A} (a b : A) (n k : nat) :
  (λ i, if decide (i = k) then a else b) <$> seq 0 n
  = <[k := a]> (replicate n b).
Proof.
  apply list_eq. intros i. rewrite list_lookup_fmap.
  destruct (decide (i < n)) as [Hi|Hi].
  - rewrite lookup_seq_lt by done. cbn. case_decide as E.
    + subst. by rewrite list_lookup_insert_eq by by rewrite length_replicate.
    + rewrite list_lookup_insert_ne by done. by rewrite lookup_replicate_2.
  - rewrite lookup_seq_ge by lia. cbn. symmetry.
    apply lookup_ge_None_2. rewrite length_insert, length_replicate. lia.
Qed.

Lemma highlight_update_emphasised (n k : nat) :
  highlight_update n k = emphasised n k.
Proof.
  unfold highlight_update, emphasised. by rewrite !fmap_seq_insert.
Qed.

Lemma on_hover_returns (c : Closure) (d : list Trace) (k : nat) :
  on_hover c d (hover_data k)
  = Return (if decide (length (originalOpacities c) = 0)
            then save_original c d else c,
            emphasised (length d) k).
Proof. unfold on_hover. cbn. by rewrite highlight_update_emphasised. Qed.

(** C1. Hovering trace k of n: the handler passes to [Plotly.restyle], in
    one call, opacities that are 1 at k and 0.15 elsewhere and line widths
    that are 4 at k and 1.5 elsewhere, n of each. *)
Theorem hover_emphasises_hovered
    (apply_restyle : list Trace → Restyle → list Trace)
    (s : Instance) (k : nat) :
  k < length (data s) →
  (∃ c', on_hover (closure s) (data s) (hover_data k)
         = Return (c', emphasised (length (data s)) k)) ∧
  restyled (step apply_restyle s (Hover k))
  = restyled s ++ [emphasised (length (data s)) k] ∧
  length (restyle_opacity (emphasised (length (data s)) k)) = length (data s) ∧
  length (restyle_line_width (emphasised (length (data s)) k)) = length (data s) ∧
  ∀ i, i < length (data s) →
    restyle_opacity (emphasised (length (data s)) k) !! i
    = Some (if decide (i = k) then 1 else 0.15)%float ∧
    restyle_line_width (emphasised (length (data s)) k) !! i
    = Some (if decide (i = k) then 4 else 1.5)%float.
Proof.
  intros Hk. split; [|split; [|split; [|split]]].
  - rewrite on_hover_returns. eauto.
  - unfold step. by rewrite on_hover_returns.
  - cbn. by rewrite length_insert, length_replicate.
  - cbn. by rewrite length_insert, length_replicate.
  - intros i Hi. cbn. case_decide as E.
    + subst. by rewrite !list_lookup_insert_eq by by rewrite length_replicate.
    + rewrite !list_lookup_insert_ne by done.
      by rewrite !lookup_replicate_2.
Qed.

Lemma hover_emphasises_hovered_witness :
  ∃ c', on_hover fresh three_traces (hover_data 1)
        = Return (c', {| restyle_opacity := [0.15; 1; 0.15]%float;
                         restyle_line_width := [1.5; 4; 1.5]%float |}).
Proof.
  exact (proj1 (hover_emphasises_hovered restyle (start three_traces) 1
                  ltac:(cbn; lia))).
Defined.

(** *** The snapshot *)

Lemma truthy_or_else (v : option float) (d : float) :
  truthy (Some d) = true → truthy (Some (or_else v d)) = true.
Proof.
  intros Hd. unfold or_else. destruct v as [x|]; [|done].
  by destruct (truthy (Some x)) eqn:E.
Qed.

Lemma or_else_truthy (x d : float) :
  truthy (Some x) = true → or_else (Some x) d = x.
Proof. intros E. unfold or_else. by rewrite E. Qed.

(** Reading back an array of truthy numbers, entry by entry. *)
Lemma restore_all (l : list float) (d : float) :
  Forall (λ x, truthy (Some x) = true) l →
  (λ i, or_else (l !! i) d) <$> seq 0 (length l) = l.
Proof.
  intros Hl. apply list_eq. intros i. rewrite list_lookup_fmap.
  destruct (l !! i) as [x|] eqn:E.
  - rewrite lookup_seq_lt by by eapply lookup_lt_Some.
    cbn. rewrite E. f_equal. apply or_else_truthy.
    by eapply (proj1 (Forall_lookup _ _) Hl).
  - rewrite lookup_seq_ge; [done|]. by apply lookup_ge_None.
Qed.

Lemma save_original_fresh (d : list Trace) :
  save_original fresh d
  = {| originalOpacities := (λ t, or_else (opacity t) 1) <$> d;
       originalLineWidths :=
         (λ t, match line t with
               | Some l => or_else (width l) 2
               | None => 2%float
               end) <$> d |}.
Proof. done. Qed.

Lemma on_unhover_snapshot (d0 d : list Trace) :
  length d = length d0 →
  on_unhover (save_original fresh d0) d
  = {| restyle_opacity := originalOpacities (save_original fresh d0);
       restyle_line_width := originalLineWidths (save_original fresh d0) |}.
Proof.
  intros Hlen. unfold on_unhover. rewrite Hlen, save_original_fresh. cbn.
  f_equal.
  - rewrite <- (length_fmap (λ t, or_else (opacity t) 1) d0) at 1.
    apply restore_all, Forall_fmap, Forall_forall. intros t _. cbn.
    by apply truthy_or_else.
  - set (w := λ t, match line t with
                   | Some l => or_else (width l) 2
                   | None => 2%float
                   end).
    rewrite <- (length_fmap w d0) at 1.
    apply restore_all, Forall_fmap, Forall_forall. intros t _. cbn.
    unfold w. destruct (line t); [by apply truthy_or_else|done].
Qed.

Lemma snapshot_as_shown (d : list Trace) :
  forallb set_values_truthy d = true →
  {| restyle_opacity := originalOpacities (save_original fresh d);
     restyle_line_width := originalLineWidths (save_original fresh d) |}
  = as_shown d.
Proof.
  intros Hd. rewrite save_original_fresh. unfold as_shown. cbn.
  rewrite forallb_forall in Hd.
  f_equal; apply list_fmap_ext; intros i t Ht;
    apply list_elem_of_lookup_2, list_elem_of_In, Hd in Ht;
    unfold set_values_truthy in Ht; apply andb_prop in Ht as [Ho Hw].
  - unfold shown_opacity. destruct (opacity t); [by apply or_else_truthy|done].
  - unfold shown_width. destruct (line t) as [[c [w|]]|]; cbn in *; try done.
    by apply or_else_truthy.
Qed.

Section Runs.
Context (apply_restyle : list Trace → Restyle → list Trace).

Lemma step_primed (s : Instance) (e : event) :
  primed (closure s) = true → closure (step apply_restyle s e) = closure s.
Proof.
  intros Hp. destruct e as [k| |d]; [|done..].
  unfold step. rewrite on_hover_returns.
  unfold primed in Hp. apply negb_true_iff, bool_decide_eq_false in Hp.
  by case_decide.
Qed.

Lemma run_primed (s : Instance) (es : list event) :
  primed (closure s) = true → closure (run apply_restyle s es) = closure s.
Proof.
  revert s. induction es as [|e es IH]; intros s Hp; [done|].
  unfold run in *. cbn. rewrite IH; [by apply step_primed|].
  by rewrite step_primed.
Qed.

Lemma first_hover_primes (s : Instance) (k : nat) :
  primed (closure s) = false → data s ≠ [] →
  closure (step apply_restyle s (Hover k)) = save_original (closure s) (data s) ∧
  primed (closure (step apply_restyle s (Hover k))) = true.
Proof.
  intros Hp Hd. unfold step. rewrite on_hover_returns. cbn.
  unfold primed in Hp. apply negb_false_iff, bool_decide_eq_true in Hp.
  rewrite decide_True by done. split; [done|].
  unfold primed. apply negb_true_iff, bool_decide_eq_false.
  cbn. rewrite length_app, length_fmap.
  destruct (data s); [done|cbn; lia].
Qed.

Lemma only_hover_primes (s : Instance) (e : event) :
  primed (closure s) = false →
  primed (closure (step apply_restyle s e)) = true →
  ∃ k, e = Hover k.
Proof. intros Hp Hp'. destruct e; [eauto|cbn in Hp'; congruence..]. Qed.

Hypothesis restyle_keeps_length :
  ∀ d u, length (apply_restyle d u) = length d.

Lemma step_length (s : Instance) (e : event) :
  pointer_only e = true →
  length (data (step apply_restyle s e)) = length (data s).
Proof.
  destruct e as [k| |d]; [| |done]; intros _; unfold step.
  - rewrite on_hover_returns. cbn. apply restyle_keeps_length.
  - cbn. apply restyle_keeps_length.
Qed.

Lemma run_length (s : Instance) (es : list event) :
  forallb pointer_only es = true →
  length (data (run apply_restyle s es)) = length (data s).
Proof.
  revert s. induction es as [|e es IH]; intros s Hes; [done|].
  cbn in Hes. apply andb_prop in Hes as [He Hes].
  unfold run in *. cbn. rewrite IH by done. by apply step_length.
Qed.

(** After a first hover and any further hovers and unhovers, an unhover
    passes the snapshot of the first hover to [Plotly.restyle]. *)
Lemma unhover_restores_snapshot (d0 : list Trace) (k : nat) (es : list event) :
  d0 ≠ [] → forallb pointer_only es = true →
  last (restyled (run apply_restyle (start d0) (Hover k :: es ++ [Unhover])))
  = Some {| restyle_opacity := originalOpacities (save_original fresh d0);
            restyle_line_width := originalLineWidths (save_original fresh d0) |}.
Proof.
  intros Hd Hes. unfold run. cbn [foldl]. rewrite foldl_app. cbn [foldl].
  fold (run apply_restyle (step apply_restyle (start d0) (Hover k)) es).
  destruct (first_hover_primes (start d0) k) as [Hc Hp]; [done..|].
  set (s1 := step apply_restyle (start d0) (Hover k)) in *.
  cbn [step restyled]. rewrite last_snoc. f_equal.
  rewrite run_primed, Hc by done. cbn [start closure data].
  apply on_unhover_snapshot.
  rewrite run_length by done. unfold s1.
  by rewrite (step_length (start d0) (Hover k)).
Qed.

(** Where no series has an opacity or a line width of 0 (or NaN), that is
    what the series showed before the first hover. *)
Lemma unhover_restores_shown (d0 : list Trace) (k : nat) (es : list event) :
  d0 ≠ [] → forallb pointer_only es = true →
  forallb set_values_truthy d0 = true →
  last (restyled (run apply_restyle (start d0) (Hover k :: es ++ [Unhover])))
  = Some (as_shown d0).
Proof.
  intros Hd Hes Hset. rewrite unhover_restores_snapshot by done.
  by rewrite snapshot_as_shown.
Qed.

End Runs.

Lemma restyle_length (d : list Trace) (u : Restyle) :
  length (restyle d u) = length d.
Proof. unfold restyle. by rewrite length_imap. Qed.

(** The traces of [createTeamLineChart] set no opacity and a width of 2. *)
Lemma team_traces_truthy (data : Chart.ChartData) :
  forallb set_values_truthy (Chart.team_trace data <$> Chart.teams data) = true.
Proof. apply forallb_forall. intros t Ht. apply list_elem_of_In in Ht.
  apply list_elem_of_fmap in Ht as (team & -> & _). reflexivity.
Qed.

(** C2, at a chart with a series of opacity 0: after a hover and an unhover
    the series is restyled to opacity 1, not to the 0 it had before the
    first hover. *)
Theorem unhover_unhides_transparent :
  shown_opacity <$> one_hidden = [0; 1; 1]%float ∧
  restyle_opacity <$> last (restyled (run restyle (start one_hidden) [Hover 1; Unhover]))
  = Some [1; 1; 1]%float ∧
  last (restyled (run restyle (start one_hidden) [Hover 1; Unhover]))
  ≠ Some (as_shown one_hidden).
Proof.
  split; [reflexivity|]. split; [reflexivity|].
  intros E.
  apply (f_equal (λ u, match restyle_opacity <$> u with
                       | Some (o :: _) => PrimFloat.eqb o 1
                       | _ => false
                       end)) in E.
  vm_compute in E. discriminate.
Qed.

(** C7. Once the snapshot is taken no event changes it, a redraw of the
    chart with other series included; the controller goes from unprimed to
    primed on a hover over a chart with a series, on no other event, and
    stays primed. *)
Theorem snapshot_taken_once
    (apply_restyle : list Trace → Restyle → list Trace) :
  (∀ s es, primed (closure s) = true →
     closure (run apply_restyle s es) = closure s ∧
     primed (closure (run apply_restyle s es)) = true) ∧
  (∀ s k, primed (closure s) = false → data s ≠ [] →
     primed (closure (step apply_restyle s (Hover k))) = true) ∧
  (∀ s e, primed (closure s) = false →
     primed (closure (step apply_restyle s e)) = true → ∃ k, e = Hover k).
Proof.
  split; [|split].
  - intros s es Hp. by rewrite run_primed.
  - intros s k Hp Hd. by apply first_hover_primes.
  - apply only_hover_primes.
Qed.

Lemma snapshot_taken_once_witness :
  closure (run restyle (step restyle (start three_traces) (Hover 1))
             [Unhover; Redraw one_hidden; Hover 0; Redraw []; Hover 2; Unhover])
  = closure (step restyle (start three_traces) (Hover 1)).
Proof.
  apply (proj1 (snapshot_taken_once restyle)). vm_compute. reflexivity.
Defined.

(** C6. Where no element has the identifier, [setupHighlight] returns
    after one warning on the console: the document and the listeners on
    its charts are as before, and nothing is thrown. *)
Theorem setupHighlight_missing (plotId : string) (p : Page) :
  document p !! plotId = None →
  ∃ p', setupHighlight plotId p = Return p' ∧
        document p' = document p ∧
        subscriptions p' = subscriptions p ∧
        console p' = console p ++ ["Plot element not found: " +:+ plotId].
Proof. intros Hnone. unfold setupHighlight. rewrite Hnone. eauto. Qed.

Lemma setupHighlight_missing_witness :
  ∃ p', setupHighlight "standings" one_chart = Return p' ∧
        document p' = document one_chart ∧
        subscriptions p' = subscriptions one_chart ∧
        console p' = console one_chart ++ ["Plot element not found: " +:+ "standings"].
Proof. apply setupHighlight_missing. vm_compute. reflexivity. Defined.

(** On an element that holds no chart the call throws. *)
Lemma setupHighlight_plain (plotId : string) (p : Page) :
  document p !! plotId = Some Plain → ∃ e, setupHighlight plotId p = Throw e.
Proof. intros Hp. unfold setupHighlight. rewrite Hp. eauto. Qed.

(** On an element that holds a chart the two listeners are registered. *)
Lemma setupHighlight_found_example :
  ∃ p', setupHighlight "scores" one_chart = Return p' ∧
        subscriptions one_chart = [] ∧
        subscriptions p' = [("scores", "plotly_hover"); ("scores", "plotly_unhover")] ∧
        console p' = [].
Proof. eexists. split; [reflexivity|]. repeat split; vm_compute; reflexivity. Qed.

End HighlightFacts.

(** ** Properties of the chart factory *)
Module ChartFacts.
Import Plotly Chart.
Local Open Scope nat_scope.

Lemma append_assoc (a b c : string) : (a +:+ b) +:+ c = a +:+ b +:+ c.
Proof.
  induction a as [|ch a IH]; [done|].
  change (String ch ((a +:+ b) +:+ c) = String ch (a +:+ b +:+ c)).
  by rewrite IH.
Qed.

Lemma contains_here (sub after : string) : contains (sub +:+ after) sub.
Proof. by exists "", after. Qed.

Lemma contains_later (p s sub : string) :
  contains s sub → contains (p +:+ s) sub.
Proof.
  intros (before & after & ->). exists (p +:+ before), after.
  by rewrite append_assoc.
Qed.

Lemma hovertemplate_team_trace (data : ChartData) (team : Team) :
  hovertemplate (team_trace data team)
  = "<b>" +:+ team_name team +:+ "</b><br>" +:+ xLabel data +:+
    ": %{x}<br>" +:+ yLabel data +:+ ": %{y:.1f}<extra></extra>".
Proof. done. Qed.

(** C8. [createTeamLineChart] passes one trace per team, in the order of
    the teams; the trace of a team has the team's name and values, and its
    hover template holds the name and shows y with one decimal. *)
Theorem createTeamLineChart_traces
    (plotId : string) (data : ChartData) (layout : option (gmap string value)) :
  let traces := plot_traces (createTeamLineChart plotId data layout) in
  length traces = length (teams data) ∧
  name <$> traces = team_name <$> teams data ∧
  ∀ i team, teams data !! i = Some team →
    ∃ t, traces !! i = Some t ∧
         name t = team_name team ∧ y t = team_y team ∧
         hovertemplate t
         = "<b>" +:+ team_name team +:+ "</b><br>" +:+ xLabel data +:+
           ": %{x}<br>" +:+ yLabel data +:+ ": %{y:.1f}<extra></extra>" ∧
         contains (hovertemplate t) (team_name team) ∧
         contains (hovertemplate t) (yLabel data +:+ ": %{y:.1f}").
Proof.
  cbn. split; [by rewrite length_fmap|]. split.
  { by rewrite <- list_fmap_compose. }
  intros i team Hi. exists (team_trace data team).
  rewrite list_lookup_fmap, Hi, hovertemplate_team_trace.
  split; [done|]. split; [done|]. split; [done|]. split; [done|]. split.
  - apply contains_later, contains_here.
  - do 5 apply contains_later.
    exists "", "<extra></extra>".
    change ("" +:+ (yLabel data +:+ ": %{y:.1f}") +:+ "<extra></extra>")
      with ((yLabel data +:+ ": %{y:.1f}") +:+ "<extra></extra>").
    by rewrite append_assoc.
Qed.

(** C9. The layout passed to [Plotly.newPlot] has, at every key, the value
    of [layout] where [layout] has the key and the value of [defaultLayout]
    otherwise; a key of [layout] replaces the whole default value, nested
    settings included. *)
Theorem createTeamLineChart_layout (plotId : string) (data : ChartData) :
  (∀ (layout : gmap string value) (k : string),
     plot_layout (createTeamLineChart plotId data (Some layout)) !! k
     = match layout !! k with
       | Some v => Some v
       | None => defaultLayout !! k
       end) ∧
  plot_layout (createTeamLineChart plotId data None) = defaultLayout ∧
  plot_layout (createTeamLineChart plotId data
                 (Some {[ "margin" := VObj [("t", VNum 0)] ]})) !! "margin"
  = Some (VObj [("t", VNum 0)]) ∧
  plot_layout (createTeamLineChart plotId data
                 (Some {[ "margin" := VObj [("t", VNum 0)] ]})) !! "legend"
  = defaultLayout !! "legend".
Proof.
  assert (∀ (layout : gmap string value) (k : string),
     plot_layout (createTeamLineChart plotId data (Some layout)) !! k
     = match layout !! k with
       | Some v => Some v
       | None => defaultLayout !! k
       end) as Hmerge.
  { intros layout k.
    change (plot_layout (createTeamLineChart plotId data (Some layout)))
      with (layout ∪ (defaultLayout ∪ ∅)).
    rewrite (right_id_L ∅ (∪)), lookup_union.
    by destruct (layout !! k), (defaultLayout !! k). }
  split; [done|]. split.
  { change (defaultLayout ∪ ∅ = defaultLayout). apply (right_id_L ∅ (∪)). }
  rewrite !Hmerge. split.
  - by rewrite lookup_singleton_eq.
  - by rewrite lookup_singleton_ne.
Qed.

End ChartFacts.

(** ** More of the highlight controller *)
Module HandlerFacts.
Import Plotly Highlight Chart Samples HighlightFacts.
Local Open Scope nat_scope.

Lemma closure_ok_fresh : closure_ok fresh.
Proof. by repeat split. Qed.

Lemma closure_ok_save (c : Closure) (d : list Trace) :
  closure_ok c → closure_ok (save_original c d).
Proof.
  intros (Hlen & Ho & Hw). unfold closure_ok, save_original. cbn.
  rewrite !length_app, !length_fmap, !Forall_app. repeat split; try done.
  - lia.
  - apply Forall_fmap, Forall_forall. intros t _. cbn. by apply truthy_or_else.
  - apply Forall_fmap, Forall_forall. intros t _. cbn.
    destruct (line t); [by apply truthy_or_else|done].
Qed.

Section AnyRestyle.
Context (apply_restyle : list Trace → Restyle → list Trace).

Lemma step_closure_ok (s : Instance) (e : event) :
  closure_ok (closure s) → closure_ok (closure (step apply_restyle s e)).
Proof.
  intros Hok. destruct e as [k| |d]; [|done..].
  unfold step. rewrite on_hover_returns. cbn.
  case_decide; [by apply closure_ok_save|done].
Qed.

Lemma run_closure_ok (s : Instance) (es : list event) :
  closure_ok (closure s) → closure_ok (closure (run apply_restyle s es)).
Proof.
  revert s. induction es as [|e es IH]; intros s Hok; [done|].
  unfold run in *. cbn. by apply IH, step_closure_ok.
Qed.

End AnyRestyle.

(** Reading an array of truthy numbers at the indices below [n]. *)
Lemma restore_resize (l : list float) (d : float) (n : nat) :
  Forall (λ x, truthy (Some x) = true) l →
  (λ i, or_else (l !! i) d) <$> seq 0 n = resize n d l.
Proof.
  intros Hl. unfold resize. apply list_eq. intros i.
  rewrite list_lookup_fmap.
  destruct (decide (i < n)) as [Hi|Hi].
  - rewrite lookup_seq_lt by done. cbn.
    destruct (l !! i) as [x|] eqn:E.
    + rewrite lookup_app_l
        by (rewrite length_take; apply lookup_lt_Some in E; lia).
      rewrite lookup_take_lt by done. rewrite E. f_equal.
      apply or_else_truthy. by eapply (proj1 (Forall_lookup _ _) Hl).
    + apply lookup_ge_None in E.
      rewrite lookup_app_r by (rewrite length_take; lia).
      rewrite length_take. symmetry. apply lookup_replicate_2. lia.
  - rewrite lookup_seq_ge by lia. cbn. symmetry. apply lookup_ge_None_2.
    rewrite length_app, length_take, length_replicate. lia.
Qed.

Lemma on_unhover_resize (c : Closure) (d : list Trace) :
  closure_ok c →
  on_unhover c d
  = {| restyle_opacity := resize (length d) 1 (originalOpacities c);
       restyle_line_width := resize (length d) 2 (originalLineWidths c) |}.
Proof.
  intros (_ & Ho & Hw). unfold on_unhover. by rewrite !restore_resize.
Qed.

(** X1. Whatever the events and whatever the library does to the traces,
    the snapshot holds as many line widths as opacities and no entry that
    is 0 or NaN. *)
Theorem snapshot_well_formed
    (apply_restyle : list Trace → Restyle → list Trace)
    (d : list Trace) (es : list event) :
  closure_ok (closure (run apply_restyle (start d) es)).
Proof. apply run_closure_ok, closure_ok_fresh. Qed.

(** X2. The unhover handler passes one opacity and one width per trace of
    the chart as it is now: the snapshot cut to that count, or filled up
    with opacity 1 and width 2 where the chart has more traces. *)
Theorem unhover_cuts_or_fills
    (apply_restyle : list Trace → Restyle → list Trace)
    (d0 : list Trace) (es : list event) (d : list Trace) :
  on_unhover (closure (run apply_restyle (start d0) es)) d
  = {| restyle_opacity :=
         resize (length d) 1
           (originalOpacities (closure (run apply_restyle (start d0) es)));
       restyle_line_width :=
         resize (length d) 2
           (originalLineWidths (closure (run apply_restyle (start d0) es))) |} ∧
  length (restyle_opacity
            (on_unhover (closure (run apply_restyle (start d0) es)) d))
  = length d ∧
  length (restyle_line_width
            (on_unhover (closure (run apply_restyle (start d0) es)) d))
  = length d.
Proof.
  split; [apply on_unhover_resize, run_closure_ok, closure_ok_fresh|].
  unfold on_unhover. cbn. by rewrite !length_fmap, !length_seq.
Qed.

(** X3. An unhover before any hover restyles every trace to opacity 1 and
    line width 2, whatever the traces had. *)
Theorem unhover_before_hover (d : list Trace) :
  on_unhover fresh d
  = {| restyle_opacity := replicate (length d) 1%float;
       restyle_line_width := replicate (length d) 2%float |}.
Proof.
  rewrite on_unhover_resize by apply closure_ok_fresh.
  unfold resize. cbn. by rewrite !take_nil, !Nat.sub_0_r.
Qed.

(** X4. A hover whose curve number is no index of the chart dims every
    trace: all opacities 0.15, all line widths 1.5. *)
Theorem hover_out_of_range (c : Closure) (d : list Trace) (k : nat) :
  length d ≤ k →
  ∃ c', on_hover c d (hover_data k)
        = Return (c', {| restyle_opacity := replicate (length d) 0.15%float;
                         restyle_line_width := replicate (length d) 1.5%float |}).
Proof.
  intros Hk. rewrite on_hover_returns. eexists. f_equal. f_equal.
  unfold emphasised.
  by rewrite !list_insert_ge by by rewrite length_replicate.
Qed.

Lemma hover_out_of_range_witness :
  ∃ c', on_hover fresh three_traces (hover_data 3)
        = Return (c', {| restyle_opacity := [0.15; 0.15; 0.15]%float;
                         restyle_line_width := [1.5; 1.5; 1.5]%float |}).
Proof. apply (hover_out_of_range fresh three_traces 3). cbn. lia. Defined.

(** X6. The snapshot is not refreshed when the chart is redrawn: after a
    first hover over traces [d0] and any events, redraws included, an
    unhover restyles to the values saved from [d0], cut or filled to the
    number of traces the chart then has. *)
Theorem unhover_after_redraw
    (apply_restyle : list Trace → Restyle → list Trace)
    (d0 : list Trace) (k : nat) (es : list event) :
  d0 ≠ [] →
  last (restyled (run apply_restyle (start d0) (Hover k :: es ++ [Unhover])))
  = Some {|
      restyle_opacity :=
        resize (length (data (run apply_restyle (start d0) (Hover k :: es)))) 1
          ((λ t, or_else (opacity t) 1) <$> d0);
      restyle_line_width :=
        resize (length (data (run apply_restyle (start d0) (Hover k :: es)))) 2
          ((λ t, match line t with
                 | Some l => or_else (width l) 2
                 | None => 2%float
                 end) <$> d0) |}.
Proof.
  intros Hd. unfold run. cbn [foldl]. rewrite foldl_app. cbn [foldl].
  fold (run apply_restyle (step apply_restyle (start d0) (Hover k)) es).
  destruct (first_hover_primes apply_restyle (start d0) k) as [Hc Hp]; [done..|].
  set (s1 := step apply_restyle (start d0) (Hover k)) in *.
  cbn [step restyled]. rewrite last_snoc. f_equal.
  rewrite on_unhover_resize.
  - by rewrite run_primed, Hc by done.
  - apply run_closure_ok. rewrite Hc. apply closure_ok_save, closure_ok_fresh.
Qed.

Lemma unhover_after_redraw_witness :
  last (restyled (run restyle (start one_hidden)
          (Hover 1 :: [Unhover; Redraw (take 2 three_traces ++ three_traces)]
             ++ [Unhover])))
  = Some {| restyle_opacity := [1; 1; 1; 1; 1]%float;
            restyle_line_width := [2; 2; 2; 2; 2]%float |}.
Proof.
  exact (unhover_after_redraw restyle one_hidden 1
           [Unhover; Redraw (take 2 three_traces ++ three_traces)]
           ltac:(discriminate)).
Defined.

(** X7. On a chart built by [createTeamLineChart], after a hover and any
    further hovers and unhovers, an unhover restyles every team's trace to
    opacity 1 and line width 2, as the factory drew it. *)
Theorem factory_chart_restores
    (apply_restyle : list Trace → Restyle → list Trace)
    (plotId : string) (data : ChartData) (layout : option (gmap string value))
    (k : nat) (es : list event) :
  (∀ d u, length (apply_restyle d u) = length d) →
  teams data ≠ [] → forallb pointer_only es = true →
  last (restyled (run apply_restyle
          (start (plot_traces (createTeamLineChart plotId data layout)))
          (Hover k :: es ++ [Unhover])))
  = Some {| restyle_opacity := replicate (length (teams data)) 1%float;
            restyle_line_width := replicate (length (teams data)) 2%float |}.
Proof.
  intros Hlen Hteams Hes.
  change (plot_traces (createTeamLineChart plotId data layout))
    with (team_trace data <$> teams data).
  rewrite unhover_restores_shown; [|done| |done|apply team_traces_truthy].
  - f_equal. unfold as_shown. f_equal.
    + rewrite <- list_fmap_compose.
      by rewrite (const_fmap _ _ 1%float).
    + rewrite <- list_fmap_compose.
      by rewrite (const_fmap _ _ 2%float).
  - by destruct (teams data).
Qed.

Lemma factory_chart_restores_witness :
  last (restyled (run restyle (start three_traces)
          (Hover 2 :: [Hover 0; Unhover; Hover 1] ++ [Unhover])))
  = Some {| restyle_opacity := [1; 1; 1]%float;
            restyle_line_width := [2; 2; 2]%float |}.
Proof.
  exact (factory_chart_restores restyle "scores" scores None 2
           [Hover 0; Unhover; Hover 1] restyle_length
           ltac:(discriminate) ltac:(reflexivity)).
Defined.

End HandlerFacts.

(** ** Properties of [setupAllHighlights] *)
Module SetupFacts.
Import Plotly Highlight Samples.
Local Open Scope nat_scope.

Lemma occurrences_cons_eq (id : string) (ids : list string) :
  occurrences id (id :: ids) = S (occurrences id ids).
Proof. unfold occurrences. by rewrite filter_cons_True. Qed.

Lemma occurrences_cons_ne (id id' : string) (ids : list string) :
  id' ≠ id → occurrences id (id' :: ids) = occurrences id ids.
Proof. intros Hne. unfold occurrences. by rewrite filter_cons_False. Qed.

Lemma occurrences_not_in (id : string) (ids : list string) :
  id ∉ ids → occurrences id ids = 0.
Proof.
  induction ids as [|id' ids IH]; [done|]. intros Hin.
  apply not_elem_of_cons in Hin as [Hne Hin].
  rewrite occurrences_cons_ne by done. by apply IH.
Qed.

Lemma setupAllHighlights_app (a b : list string) (p : Page) :
  setupAllHighlights (a ++ b) p
  = match setupAllHighlights a p with
    | (p1, None) => setupAllHighlights b p1
    | thrown => thrown
    end.
Proof.
  revert p. induction a as [|id a IH]; intros p; [done|].
  cbn. destruct (setupHighlight id p); [apply IH|done].
Qed.

(** Where no identifier names an element that is no chart, every call
    returns: the warnings and the controllers the loop leaves. *)
Lemma setupAllHighlights_returns (ids : list string) (p : Page) :
  Forall (λ id, plain p id = false) ids →
  ∃ p', setupAllHighlights ids p = (p', None) ∧
    console p'
    = console p ++ (warning <$> filter (λ id, missing p id = true) ids) ∧
    ∀ id, document p' !! id
          = after_calls (occurrences id ids) (document p !! id).
Proof.
  revert p. induction ids as [|id0 ids IH]; intros p Hids.
  { exists p. split; [done|]. split; [by rewrite app_nil_r|].
    intros id. unfold after_calls. cbn.
    destruct (document p !! id) as [[|d cs]|]; [done| |done].
    by rewrite app_nil_r. }
  apply Forall_cons in Hids as [Hid0 Hids].
  cbn [setupAllHighlights]. unfold setupHighlight.
  unfold plain in Hid0.
  destruct (document p !! id0) as [[|d0 cs0]|] eqn:E; [done| |].
  - set (p1 := {| document := <[id0:=Graph d0 (cs0 ++ [fresh])]> (document p);
                  console := console p |}).
    assert (∀ id, missing p1 id = missing p id) as Hmiss.
    { intros id. unfold missing, p1. cbn.
      destruct (decide (id = id0)) as [->|Hne].
      - by rewrite lookup_insert_eq, E.
      - by rewrite lookup_insert_ne. }
    destruct (IH p1) as (p' & Hrun & Hcons & Hdoc).
    { eapply Forall_impl; [exact Hids|]. intros id Hid. unfold plain, p1 in *.
      cbn. destruct (decide (id = id0)) as [->|Hne].
      - by rewrite lookup_insert_eq.
      - by rewrite lookup_insert_ne. }
    exists p'. split; [done|]. split.
    + rewrite Hcons. cbn [console p1].
      rewrite filter_cons_False by (unfold missing; by rewrite E).
      f_equal. f_equal. apply list_filter_iff. intros id. by rewrite Hmiss.
    + intros id. rewrite Hdoc. unfold p1. cbn [document].
      destruct (decide (id = id0)) as [->|Hne].
      * rewrite lookup_insert_eq, E, occurrences_cons_eq. cbn.
        by rewrite <- (assoc_L (++)).
      * by rewrite lookup_insert_ne, occurrences_cons_ne.
  - set (p1 := {| document := document p;
                  console := console p ++ ["Plot element not found: " +:+ id0] |}).
    destruct (IH p1) as (p' & Hrun & Hcons & Hdoc); [done|].
    exists p'. split; [done|]. split.
    + rewrite Hcons. cbn [console p1].
      rewrite filter_cons_True by (unfold missing; by rewrite E).
      by rewrite <- (assoc_L (++)).
    + intros id. rewrite Hdoc. cbn [document p1].
      destruct (decide (id = id0)) as [->|Hne].
      * by rewrite E.
      * by rewrite occurrences_cons_ne.
Qed.

(** X8. Where no identifier names an element that is no chart,
    [setupAllHighlights] returns, and the console gets one warning for each
    identifier without an element, in the order of the list, repeats
    included. *)
Theorem setupAllHighlights_warnings (ids : list string) (p : Page) :
  Forall (λ id, plain p id = false) ids →
  snd (setupAllHighlights ids p) = None ∧
  console (fst (setupAllHighlights ids p))
  = console p ++ (warning <$> filter (λ id, missing p id = true) ids).
Proof.
  intros Hids.
  destruct (setupAllHighlights_returns ids p Hids) as (p' & -> & Hcons & _).
  done.
Qed.

Lemma setupAllHighlights_warnings_witness :
  snd (setupAllHighlights ["standings"; "scores"; "trades"] one_chart) = None ∧
  console (fst (setupAllHighlights ["standings"; "scores"; "trades"] one_chart))
  = ["Plot element not found: standings"; "Plot element not found: trades"].
Proof.
  apply (setupAllHighlights_warnings ["standings"; "scores"; "trades"] one_chart).
  vm_compute. repeat constructor.
Defined.

(** X9. Under the same condition every chart keeps its traces and gets
    one new controller for each occurrence of its identifier in the list:
    listing a chart twice registers its handlers twice. *)
Theorem setupAllHighlights_controllers
    (ids : list string) (p : Page) (id : string)
    (d : list Trace) (cs : list Closure) :
  Forall (λ id, plain p id = false) ids →
  document p !! id = Some (Graph d cs) →
  document (fst (setupAllHighlights ids p)) !! id
  = Some (Graph d (cs ++ replicate (occurrences id ids) fresh)).
Proof.
  intros Hids Hid.
  destruct (setupAllHighlights_returns ids p Hids) as (p' & -> & _ & Hdoc).
  cbn. by rewrite Hdoc, Hid.
Qed.

Lemma setupAllHighlights_controllers_witness :
  document (fst (setupAllHighlights ["scores"; "trades"; "scores"] one_chart))
    !! "scores"
  = Some (Graph three_traces [fresh; fresh]).
Proof.
  apply (setupAllHighlights_controllers ["scores"; "trades"; "scores"]
           one_chart "scores" three_traces []).
  - vm_compute. repeat constructor.
  - vm_compute. reflexivity.
Defined.

(** X10. At the first identifier whose element is no chart the loop ends
    with a TypeError: the identifiers before it are done, and an element
    not listed before it is left as it was, the charts listed after it
    included. *)
Theorem setupAllHighlights_stops_at_throw
    (before after : list string) (bad : string) (p : Page) :
  Forall (λ id, plain p id = false) before →
  plain p bad = true →
  setupAllHighlights (before ++ bad :: after) p
  = (fst (setupAllHighlights before p),
     Some "TypeError: plotDiv.on is not a function") ∧
  ∀ id, id ∉ before →
    document (fst (setupAllHighlights (before ++ bad :: after) p)) !! id
    = document p !! id.
Proof.
  intros Hbefore Hbad.
  destruct (setupAllHighlights_returns before p Hbefore)
    as (p1 & Hrun & _ & Hdoc).
  assert (setupAllHighlights (before ++ bad :: after) p
          = (p1, Some "TypeError: plotDiv.on is not a function")) as Hall.
  { rewrite setupAllHighlights_app, Hrun. cbn. unfold setupHighlight.
    rewrite Hdoc. unfold plain in Hbad.
    by destruct (document p !! bad) as [[|]|]. }
  rewrite Hall, Hrun. split; [done|].
  intros id Hid. cbn. rewrite Hdoc, occurrences_not_in by done.
  unfold after_calls. destruct (document p !! id) as [[|d cs]|]; [done| |done].
  by rewrite app_nil_r.
Qed.

Lemma setupAllHighlights_stops_at_throw_witness :
  setupAllHighlights (["scores"] ++ "header" :: ["trades"]) with_header
  = (fst (setupAllHighlights ["scores"] with_header),
     Some "TypeError: plotDiv.on is not a function") ∧
  ∀ id, id ∉ ["scores"] →
    document (fst (setupAllHighlights (["scores"] ++ "header" :: ["trades"])
                     with_header)) !! id
    = document with_header !! id.
Proof.
  apply (setupAllHighlights_stops_at_throw ["scores"] ["trades"] "header"
           with_header).
  - vm_compute. repeat constructor.
  - vm_compute. reflexivity.
Defined.

Lemma grown_refl (e : option Element) : grown e e.
Proof.
  destruct e as [[|d cs]|]; cbn; [done| |done].
  split; [done|]. exists 0. by rewrite app_nil_r.
Qed.

Lemma grown_trans (e1 e2 e3 : option Element) :
  grown e1 e2 → grown e2 e3 → grown e1 e3.
Proof.
  destruct e1 as [[|d1 cs1]|], e2 as [[|d2 cs2]|], e3 as [[|d3 cs3]|];
    cbn; try done.
  intros [-> [n ->]] [-> [m ->]]. split; [done|]. exists (n + m).
  by rewrite replicate_add, (assoc_L (++)).
Qed.

Lemma setupHighlight_grown (id : string) (p p' : Page) :
  setupHighlight id p = Return p' →
  (∀ j, grown (document p !! j) (document p' !! j)) ∧
  console p `prefix_of` console p'.
Proof.
  unfold setupHighlight.
  destruct (document p !! id) as [[|d cs]|] eqn:E; [done| |];
    intros [= <-]; cbn.
  - split; [|done]. intros j. destruct (decide (j = id)) as [->|Hne].
    + rewrite lookup_insert_eq, E. cbn. split; [done|]. by exists 1.
    + rewrite lookup_insert_ne by done. apply grown_refl.
  - split; [intros j; apply grown_refl|]. by apply prefix_app_r.
Qed.

(** X11. [setupAllHighlights] only adds: no element appears or goes, a
    chart keeps its traces and its controllers and may get new ones after
    them, and the console keeps its lines and may get new ones after
    them. *)
Theorem setupAllHighlights_only_adds (ids : list string) (p : Page) :
  (∀ j, grown (document p !! j)
              (document (fst (setupAllHighlights ids p)) !! j)) ∧
  console p `prefix_of` console (fst (setupAllHighlights ids p)).
Proof.
  revert p. induction ids as [|id ids IH]; intros p.
  { split; [intros j; apply grown_refl|done]. }
  cbn [setupAllHighlights].
  destruct (setupHighlight id p) as [p1|e] eqn:E.
  - apply setupHighlight_grown in E as [Hdoc Hcons].
    destruct (IH p1) as [Hdoc' Hcons']. split.
    + intros j. eapply grown_trans; [apply Hdoc|apply Hdoc'].
    + by etrans.
  - split; [intros j; apply grown_refl|done].
Qed.

End SetupFacts.

(** ** More of the palette *)
Module PaletteMore.
Import JS Palette PaletteFacts.
Local Open Scope Z_scope.

Lemma channelZ_between_up (lo hi n i : Z) :
  2 ≤ n → lo ≤ hi → 0 ≤ i < n → lo ≤ channelZ lo hi n i ≤ hi.
Proof.
  intros Hn Hc Hi. split.
  - rewrite <- (channelZ_first lo hi n) at 1 by done. apply channelZ_up; lia.
  - rewrite <- (channelZ_last lo hi n) at 2 by done. apply channelZ_up; lia.
Qed.

Lemma channelZ_between_down (lo hi n i : Z) :
  2 ≤ n → hi ≤ lo → 0 ≤ i < n → hi ≤ channelZ lo hi n i ≤ lo.
Proof.
  intros Hn Hc Hi. split.
  - rewrite <- (channelZ_last lo hi n) at 1 by done. apply channelZ_down; lia.
  - rewrite <- (channelZ_first lo hi n) at 2 by done. apply channelZ_down; lia.
Qed.

(** The colours of doubles at the indices of a checked palette. *)
Lemma double_color_checked (n i : Z) :
  2 ≤ n ≤ 181 → 0 ≤ i < n →
  interpolates n i (color_at float n i) ∧
  towards_red (IInt 52, IInt 152, IInt 219) (color_at float n i) ∧
  towards_red (color_at float n i) (IInt 231, IInt 76, IInt 60).
Proof.
  intros Hn Hi.
  pose proof (double_palette_checked n Hn) as Hok.
  destruct (palette_okb_sound float n ltac:(lia) Hok) as (Hint & Hmono & _).
  unfold palette_okb in Hok.
  rewrite !andb_true_iff, !bool_decide_eq_true in Hok.
  destruct Hok as [[[[Hc _] _] Hfirst] Hlast].
  apply (forallb_seqZ _ _ _ Hc i) in Hi as Hci.
  rewrite team_colors_lookup in Hci by lia.
  split; [by apply interpolatesb_spec|]. split.
  - destruct (Hmono 0 i ltac:(lia)) as (c & d & Ec & Ed & Hcd).
    rewrite team_colors_lookup in Ed by lia.
    change (Z.to_nat 0) with 0%nat in Ec. rewrite Hfirst in Ec.
    by simplify_eq.
  - destruct (Hmono i (n - 1) ltac:(lia)) as (c & d & Ec & Ed & Hcd).
    rewrite team_colors_lookup in Ec by lia. rewrite Hlast in Ed.
    by simplify_eq.
Qed.

(** X12. For n >= 2 every colour has integer channels between those of
    the end colours: red in 52..231, green in 76..152, blue in 60..219
    (exact arithmetic for every n, doubles for n up to 181). *)
Theorem getTeamColors_channels_in_range :
  (∀ n c, 2 ≤ n → c ∈ team_colors exact n → in_range c) ∧
  (∀ n c, 2 ≤ n ≤ 181 → c ∈ team_colors float n → in_range c).
Proof.
  split.
  - intros n c Hn Hc. unfold team_colors in Hc.
    apply list_elem_of_fmap in Hc as (i & -> & Hi).
    apply elem_of_seqZ in Hi. rewrite color_at_exact by done.
    eexists _, _, _. split; [done|].
    split; [apply channelZ_between_up; lia|].
    split; apply channelZ_between_down; lia.
  - intros n c Hn Hc. unfold team_colors in Hc.
    apply list_elem_of_fmap in Hc as (i & -> & Hi).
    apply elem_of_seqZ in Hi.
    destruct (double_color_checked n i) as (_ & Hlo & Hhi); [lia..|].
    destruct Hlo as (r0 & g0 & b0 & r & g & b & E0 & E & ? & ? & ?).
    destruct Hhi as (r' & g' & b' & r1 & g1 & b1 & E' & E1 & ? & ? & ?).
    rewrite E in E'. simplify_eq.
    exists r', g', b'. split; [done|]. lia.
Qed.

Lemma getTeamColors_channels_in_range_witness :
  in_range (color_at exact 10 4) ∧ in_range (color_at float 10 4).
Proof.
  split.
  - apply (proj1 getTeamColors_channels_in_range 10); [lia|].
    apply list_elem_of_lookup. exists 4%nat.
    apply (team_colors_lookup exact 10 4). lia.
  - apply (proj2 getTeamColors_channels_in_range 10); [lia|].
    apply list_elem_of_lookup. exists 4%nat.
    apply (team_colors_lookup float 10 4). lia.
Defined.

(** X13. Two colour strings of integer channels are equal exactly when
    the channels are. *)
Theorem rgb_tells_channels (r g b r' g' b' : Z) :
  rgb (IInt r, IInt g, IInt b) = rgb (IInt r', IInt g', IInt b') ↔
  r = r' ∧ g = g' ∧ b = b'.
Proof.
  split.
  - intros E. apply rgb_inj in E. by simplify_eq.
  - by intros (-> & -> & ->).
Qed.


Lemma color_at_double_exact (n i : Z) :
  2 ≤ n ≤ 106 → 0 ≤ i < n → color_at float n i = color_at exact n i.
Proof.
  intros Hn Hi.
  destruct (double_color_checked n i) as ((r & g & b & E & _) & _); [lia..|].
  pose proof (double_agrees_with_exact n ltac:(lia)) as Hsame.
  apply (f_equal (λ l, l !! Z.to_nat i)) in Hsame.
  rewrite !getTeamColors_lookup in Hsame by lia.
  assert (rgb (color_at float n i) = rgb (color_at exact n i)) as Hrgb
    by congruence.
  rewrite E in Hrgb |- *. rewrite color_at_exact in Hrgb |- * by lia.
  apply rgb_inj in Hrgb. by simplify_eq.
Qed.

(** X15. For 2 to 106 teams, doubles give each channel as the exact
    interpolation rounded to the nearest integer, halves up. *)
Theorem double_rounds_exactly (n i : Z) :
  2 ≤ n ≤ 106 → 0 ≤ i < n →
  color_at float n i
  = (IInt (round (lerp 52 231 i n)), IInt (round (lerp 152 76 i n)),
     IInt (round (lerp 219 60 i n))).
Proof.
  intros Hn Hi. rewrite color_at_double_exact by done.
  unfold color_at; cbv zeta. by rewrite !channel_exact by lia.
Qed.

Lemma double_rounds_exactly_witness :
  color_at float 10 4
  = (IInt (round (lerp 52 231 4 10)), IInt (round (lerp 152 76 4 10)),
     IInt (round (lerp 219 60 4 10))).
Proof. apply double_rounds_exactly; lia. Defined.

(** X16. For up to 180 teams in exact arithmetic, and up to 106 on
    doubles, red grows strictly from each colour to any later one. *)
Theorem red_strictly_increases :
  (∀ n i j, 2 ≤ n ≤ 180 → 0 ≤ i < j ∧ j < n →
     ∃ r g b r' g' b' : Z,
       color_at exact n i = (IInt r, IInt g, IInt b) ∧
       color_at exact n j = (IInt r', IInt g', IInt b') ∧ r < r') ∧
  (∀ n i j, 2 ≤ n ≤ 106 → 0 ≤ i < j ∧ j < n →
     ∃ r g b r' g' b' : Z,
       color_at float n i = (IInt r, IInt g, IInt b) ∧
       color_at float n j = (IInt r', IInt g', IInt b') ∧ r < r').
Proof.
  assert (∀ n i j, 2 ≤ n ≤ 180 → 0 ≤ i < j ∧ j < n →
     ∃ r g b r' g' b' : Z,
       color_at exact n i = (IInt r, IInt g, IInt b) ∧
       color_at exact n j = (IInt r', IInt g', IInt b') ∧ r < r') as Hexact.
  { intros n i j Hn Hij. rewrite !color_at_exact by lia.
    eexists _, _, _, _, _, _. split; [done|]. split; [done|].
    apply channelZ_red_strict; lia. }
  split; [done|]. intros n i j Hn Hij.
  rewrite !color_at_double_exact by lia. apply Hexact; lia.
Qed.

Lemma red_strictly_increases_witness :
  ∃ r g b r' g' b' : Z,
    color_at float 10 4 = (IInt r, IInt g, IInt b) ∧
    color_at float 10 5 = (IInt r', IInt g', IInt b') ∧ r < r'.
Proof. apply (proj2 red_strictly_increases 10 4 5); lia. Defined.

End PaletteMore.

(** ** More of the chart factory *)
Module ChartMore.
Import Plotly Chart ChartFacts.

(** X17. The keys of the layout passed to [Plotly.newPlot] are those of
    [layout] and the six of [defaultLayout]. *)
Theorem layout_keys (plotId : string) (data : ChartData)
    (layout : gmap string value) :
  dom (plot_layout (createTeamLineChart plotId data (Some layout)))
  = dom layout ∪
    {[ "font"; "paper_bgcolor"; "plot_bgcolor"; "margin"; "hovermode"; "legend" ]}.
Proof.
  change (plot_layout (createTeamLineChart plotId data (Some layout)))
    with (layout ∪ (defaultLayout ∪ ∅)).
  rewrite (right_id_L ∅ (∪)), dom_union_L. f_equal.
Qed.

(** X18. A [layout] that repeats settings of [defaultLayout] changes
    nothing. *)
Theorem layout_within_defaults (plotId : string) (data : ChartData)
    (layout : gmap string value) :
  layout ⊆ defaultLayout →
  plot_layout (createTeamLineChart plotId data (Some layout)) = defaultLayout.
Proof.
  intros Hsub.
  change (plot_layout (createTeamLineChart plotId data (Some layout)))
    with (layout ∪ (defaultLayout ∪ ∅)).
  rewrite (right_id_L ∅ (∪)). by apply map_subseteq_union.
Qed.

Lemma layout_within_defaults_witness :
  plot_layout (createTeamLineChart "scores" Samples.scores
                 (Some {[ "hovermode" := VStr "closest" ]}))
  = defaultLayout.
Proof.
  apply layout_within_defaults.
  apply map_singleton_subseteq_l. reflexivity.
Defined.

End ChartMore.

(** ** Rounding to the nearest double

    The operations of [SpecFloat], which the primitive floats are specified
    by, in terms of the values of their arguments. *)
Module Binary64Facts.
Import JS Binary64.

(** *** Powers of two *)

Lemma fexp_eq e : SpecFloat.fexp prec emax e = fexp64 e.
Proof. reflexivity. Qed.

Lemma pow2_pos e : (0 < pow2 e)%Q.
Proof. apply Qpower_0_lt. reflexivity. Qed.

Lemma pow2_add a b : (pow2 (a + b) == pow2 a * pow2 b)%Q.
Proof. apply Qpower_plus. discriminate. Qed.

Lemma pow2_0 : (pow2 0 == 1)%Q.
Proof. reflexivity. Qed.

Lemma pow2_succ e : (pow2 (e + 1) == 2 * pow2 e)%Q.
Proof. rewrite pow2_add. change (pow2 1) with 2%Q. ring. Qed.

Lemma pow2_pred e : (pow2 (e - 1) == pow2 e / 2)%Q.
Proof.
  pose proof (pow2_succ (e - 1)) as H. replace (e - 1 + 1) with e in H by lia.
  rewrite H. field.
Qed.

Lemma pow2_le a b : a ≤ b → (pow2 a <= pow2 b)%Q.
Proof. intros H. apply Qpower_le_compat_l; [exact H|]. discriminate. Qed.

Lemma pow2_lt a b : a < b → (pow2 a < pow2 b)%Q.
Proof. intros H. apply Qpower_lt_compat_l; [exact H|]. reflexivity. Qed.

Lemma pow2_lt_inv a b : (pow2 a < pow2 b)%Q → a < b.
Proof.
  intros H. destruct (Z.lt_ge_cases a b) as [|Hge]; [done|].
  apply pow2_le in Hge. lra.
Qed.

Lemma pow2_Z k : 0 ≤ k → (pow2 k == inject_Z (2 ^ k))%Q.
Proof. intros H. unfold pow2. by rewrite Zpower_Qpower. Qed.

Lemma pow2_sub a b : (pow2 (a - b) == pow2 a / pow2 b)%Q.
Proof.
  pose proof (pow2_add (a - b) b) as H. replace (a - b + b) with a in H by lia.
  pose proof (pow2_pos b). rewrite H. field. lra.
Qed.

(** *** Digits *)

Lemma digits2_size (p : positive) : digits2_pos p = Pos.size p.
Proof. induction p; cbn; congruence. Qed.

Lemma Zdigits2_pos (m : Z) :
  0 < m → 2 ^ (Zdigits2 m - 1) ≤ m < 2 ^ Zdigits2 m ∧ 1 ≤ Zdigits2 m.
Proof.
  destruct m as [|p|p]; [lia| |lia]. intros _. cbn [Zdigits2].
  rewrite digits2_size.
  pose proof (Pos.size_gt p) as Hgt. pose proof (Pos.size_le p) as Hle.
  assert (Z.pos p < 2 ^ Z.pos (Pos.size p)) as Hgt'.
  { change 2 with (Z.pos 2). rewrite <- Pos2Z.inj_pow. lia. }
  assert (2 ^ Z.pos (Pos.size p) ≤ 2 * Z.pos p) as Hle'.
  { change 2 with (Z.pos 2) at 1. rewrite <- Pos2Z.inj_pow. lia. }
  split; [|lia]. split; [|done].
  replace (Z.pos (Pos.size p)) with (Z.pos (Pos.size p) - 1 + 1) in Hle' by lia.
  rewrite Z.pow_add_r in Hle' by lia. lia.
Qed.

Lemma Zdigits2_0 : Zdigits2 0 = 0.
Proof. reflexivity. Qed.

Lemma Zdigits2_nonneg (m : Z) : 0 ≤ m → 0 ≤ Zdigits2 m.
Proof. destruct m; cbn; lia. Qed.

Lemma Zdigits2_le (m k : Z) : 0 ≤ m → 0 ≤ k → m < 2 ^ k → Zdigits2 m ≤ k.
Proof.
  intros Hm Hk Hlt. destruct (decide (m = 0)) as [->|]; [cbn; lia|].
  destruct (Zdigits2_pos m) as [[Hlo _] _]; [lia|].
  destruct (Z.le_gt_cases (Zdigits2 m) k) as [|Hgt]; [done|].
  assert (2 ^ k ≤ 2 ^ (Zdigits2 m - 1)) by (apply Z.pow_le_mono_r; lia). lia.
Qed.

Lemma Zdigits2_unique (m k : Z) : 2 ^ (k - 1) ≤ m < 2 ^ k → 1 ≤ k → Zdigits2 m = k.
Proof.
  intros [Hlo Hhi] Hk.
  assert (0 < m) by (pose proof (Z.pow_pos_nonneg 2 (k - 1)); lia).
  destruct (Zdigits2_pos m) as [[Hlo' Hhi'] Hd]; [done|].
  destruct (Z.lt_trichotomy (Zdigits2 m) k) as [Hlt|[->|Hgt]]; [|done|].
  - assert (2 ^ Zdigits2 m ≤ 2 ^ (k - 1)) by (apply Z.pow_le_mono_r; lia). lia.
  - assert (2 ^ k ≤ 2 ^ (Zdigits2 m - 1)) by (apply Z.pow_le_mono_r; lia). lia.
Qed.

(** *** Shifting right, with the place of the value kept *)

Lemma shr_1_spec (m : Z) (r s : bool) :
  0 ≤ m →
  shr_1 {| shr_m := m; shr_r := r; shr_s := s |}
  = {| shr_m := Z.div2 m; shr_r := Z.odd m; shr_s := r || s |}.
Proof. intros Hm. destruct m as [|[p|p|]|]; try done; lia. Qed.

Lemma located_proper (y y' : Q) (m : Z) (l : location) :
  (y == y')%Q → located y m l → located y' m l.
Proof.
  intros E. destruct l as [|c]; cbn.
  - intros H. by rewrite <- E.
  - intros [[H1 H2] H3]. rewrite <- E. done.
Qed.

Lemma Qcompare_Lt (a b : Q) : (a ?= b)%Q = Lt ↔ (a < b)%Q.
Proof. symmetry. apply Qlt_alt. Qed.
Lemma Qcompare_Gt (a b : Q) : (a ?= b)%Q = Gt ↔ (b < a)%Q.
Proof. symmetry. apply Qgt_alt. Qed.
Lemma Qcompare_Eq (a b : Q) : (a ?= b)%Q = Eq ↔ (a == b)%Q.
Proof. symmetry. apply Qeq_alt. Qed.

Lemma located_shr_1 (y : Q) (m : Z) (r s : bool) :
  0 ≤ m →
  located y m (loc_of_shr_record {| shr_m := m; shr_r := r; shr_s := s |}) →
  located (y * (1 # 2)) (Z.div2 m)
    (loc_of_shr_record
       {| shr_m := Z.div2 m; shr_r := Z.odd m; shr_s := r || s |}).
Proof.
  intros Hm Hloc.
  assert (inject_Z m == 2 * inject_Z (Z.div2 m) + (if Z.odd m then 1 else 0))%Q
    as Hm2.
  { rewrite (Z.div2_odd m) at 1. rewrite inject_Z_plus, inject_Z_mult.
    destruct (Z.odd m); cbn; ring. }
  revert Hloc Hm2.
  destruct r, s; cbn [loc_of_shr_record located orb];
    rewrite ?Qcompare_Lt, ?Qcompare_Gt, ?Qcompare_Eq.
  - intros [[H1 H2] H3] Hm2.
    destruct (Z.odd m); cbn; rewrite ?Qcompare_Lt, ?Qcompare_Gt, ?Qcompare_Eq;
      repeat split; lra.
  - intros H3 Hm2.
    destruct (Z.odd m); cbn; rewrite ?Qcompare_Lt, ?Qcompare_Gt, ?Qcompare_Eq;
      repeat split; lra.
  - intros [[H1 H2] H3] Hm2.
    destruct (Z.odd m); cbn; rewrite ?Qcompare_Lt, ?Qcompare_Gt, ?Qcompare_Eq;
      repeat split; lra.
  - intros H3 Hm2.
    destruct (Z.odd m); cbn; rewrite ?Qcompare_Lt, ?Qcompare_Gt, ?Qcompare_Eq;
      repeat split; lra.
Qed.

(** *** Shifting by any number of bits *)

Lemma shifted_1 (rec : shr_record) (y : Q) :
  0 ≤ shr_m rec → located y (shr_m rec) (loc_of_shr_record rec) →
  shifted 1 rec y (shr_1 rec).
Proof.
  destruct rec as [m r s]. cbn [shr_m]. intros Hm Hloc.
  rewrite shr_1_spec by done. unfold shifted. cbn [shr_m].
  rewrite Z.div2_div. split; [done|]. split; [apply Z.div_pos; lia|].
  apply (located_proper (y * (1 # 2))); [reflexivity|].
  rewrite <- Z.div2_div. by apply located_shr_1.
Qed.

Lemma shifted_trans (a b : Z) (rec rec1 rec2 : shr_record) (y : Q) :
  0 ≤ a → 0 ≤ b →
  shifted a rec y rec1 → shifted b rec1 (y * pow2 (- a)) rec2 →
  shifted (a + b) rec y rec2.
Proof.
  intros Ha Hb (Hm1 & Hp1 & Hl1) (Hm2 & Hp2 & Hl2). unfold shifted.
  split; [|split; [done|]].
  - rewrite Hm2, Hm1, Z.pow_add_r by done.
    assert (0 < 2 ^ a) by (apply Z.pow_pos_nonneg; lia).
    assert (0 < 2 ^ b) by (apply Z.pow_pos_nonneg; lia).
    rewrite Z.div_div by lia. done.
  - eapply located_proper; [|exact Hl2].
    replace (- (a + b)) with (- a + - b) by lia. rewrite pow2_add. ring.
Qed.

Lemma shifted_proper (k : Z) (rec rec' : shr_record) (y y' : Q) :
  (y == y')%Q → shifted k rec y rec' → shifted k rec y' rec'.
Proof.
  intros E (Hm & Hp & Hl). split; [done|]. split; [done|].
  eapply located_proper; [|exact Hl]. by rewrite E.
Qed.

Lemma shifted_iter (p : positive) (rec : shr_record) (y : Q) :
  0 ≤ shr_m rec → located y (shr_m rec) (loc_of_shr_record rec) →
  shifted (Z.pos p) rec y (SpecFloat.iter_pos shr_1 p rec).
Proof.
  revert rec y.
  induction p as [p IH|p IH|]; intros rec y Hm Hloc; cbn [SpecFloat.iter_pos].
  - pose proof (shifted_1 rec y Hm Hloc) as H1.
    pose proof H1 as (_ & Hm1 & Hl1).
    change (pow2 (- (1))) with (1 # 2)%Q in Hl1.
    pose proof (IH _ _ Hm1 Hl1) as H2. pose proof H2 as (_ & Hm2 & Hl2).
    pose proof (IH _ _ Hm2 Hl2) as H3.
    replace (Z.pos p~1) with (1 + Z.pos p + Z.pos p) by lia.
    eapply shifted_trans; [lia|lia| |].
    + eapply shifted_trans; [lia|lia|exact H1|exact H2].
    + eapply shifted_proper; [|exact H3].
      replace (- (1 + Z.pos p)) with (- (1) + - Z.pos p) by lia.
      rewrite (pow2_add (-1)). change (pow2 (-1)) with (1 # 2)%Q. ring.
  - pose proof (IH _ _ Hm Hloc) as H1. pose proof H1 as (_ & Hm1 & Hl1).
    pose proof (IH _ _ Hm1 Hl1) as H2.
    replace (Z.pos p~0) with (Z.pos p + Z.pos p) by lia.
    eapply shifted_trans; [lia|lia|exact H1|exact H2].
  - by apply shifted_1.
Qed.

Lemma loc_of_record_of_loc (m : Z) (l : location) :
  loc_of_shr_record (shr_record_of_loc m l) = l ∧
  shr_m (shr_record_of_loc m l) = m.
Proof. by destruct l as [|[]]. Qed.

(** [shr_fexp]: the shift that brings the exponent to
    [Z.max e (fexp64 (Zdigits2 m + e))]. *)
Lemma shr_fexp_spec (m e : Z) (l : location) (y : Q) :
  0 ≤ m → located y m l →
  ∃ rec', shr_fexp prec emax m e l
          = (rec', Z.max e (fexp64 (Zdigits2 m + e))) ∧
    shifted (Z.max e (fexp64 (Zdigits2 m + e)) - e)
      (shr_record_of_loc m l) y rec'.
Proof.
  intros Hm Hloc. unfold shr_fexp. rewrite fexp_eq.
  destruct (loc_of_record_of_loc m l) as [El Em].
  set (F := fexp64 (Zdigits2 m + e)).
  unfold shr. destruct (F - e) as [|p|p] eqn:E.
  - exists (shr_record_of_loc m l). replace (Z.max e F) with e by lia.
    split; [done|]. replace (e - e) with 0 by lia. unfold shifted.
    rewrite Em, El, Z.div_1_r. split; [done|]. split; [done|].
    eapply located_proper; [|exact Hloc]. change (pow2 (- 0)) with 1%Q. ring.
  - exists (SpecFloat.iter_pos shr_1 p (shr_record_of_loc m l)).
    replace (Z.max e F) with (e + Z.pos p) by lia.
    split; [done|]. replace (e + Z.pos p - e) with (Z.pos p) by lia.
    apply shifted_iter; by rewrite ?Em, ?El.
  - exists (shr_record_of_loc m l). replace (Z.max e F) with e by lia.
    split; [done|]. replace (e - e) with 0 by lia. unfold shifted.
    rewrite Em, El, Z.div_1_r. split; [done|]. split; [done|].
    eapply located_proper; [|exact Hloc]. change (pow2 (- 0)) with 1%Q. ring.
Qed.

(** Rounding to nearest, ties to even. *)
Lemma round_nearest_even_spec (m : Z) (l : location) (y : Q) :
  located y m l →
  (Qabs (inject_Z (round_nearest_even m l) - y) <= 1 # 2)%Q ∧
  (m ≤ round_nearest_even m l ≤ m + 1) ∧
  (∀ k : Z, (y == inject_Z k)%Q → round_nearest_even m l = k).
Proof.
  intros Hloc.
  assert (inject_Z (m + 1) == inject_Z m + 1)%Q as E1
    by (rewrite inject_Z_plus; reflexivity).
  destruct l as [|c]; cbn [round_nearest_even located] in *.
  - split; [|split; [lia|]].
    + apply Qabs_Qle_condition. split; lra.
    + intros k Hk. apply inject_Z_injective. by rewrite <- Hk, Hloc.
  - destruct Hloc as [[H1 H2] H3].
    assert (∀ k : Z, (y == inject_Z k)%Q → False) as Hnot.
    { intros k Hk. rewrite Hk in H1, H2. rewrite <- E1 in H2.
      rewrite <- Zlt_Qlt in H1, H2. lia. }
    destruct c; [apply Qeq_alt in H3|apply Qlt_alt in H3|apply Qgt_alt in H3].
    + destruct (Z.even m); (split; [|split; [lia|by intros k ?%Hnot]]);
        apply Qabs_Qle_condition; split; lra.
    + split; [|split; [lia|by intros k ?%Hnot]].
      apply Qabs_Qle_condition; split; lra.
    + split; [|split; [lia|by intros k ?%Hnot]].
      apply Qabs_Qle_condition; split; lra.
Qed.

(** *** Rounding a located value *)

Lemma fexp64_ge e : -1074 ≤ fexp64 e.
Proof. unfold fexp64. lia. Qed.

Lemma fexp64_mono a b : a ≤ b → fexp64 a ≤ fexp64 b.
Proof. unfold fexp64. lia. Qed.

Lemma shifted_mantissa_small (mx ex E : Z) :
  0 ≤ mx → ex ≤ E → fexp64 (Zdigits2 mx + ex) ≤ E →
  mx / 2 ^ (E - ex) < 2 ^ 53.
Proof.
  intros Hm He HF.
  assert (0 < 2 ^ (E - ex)) by (apply Z.pow_pos_nonneg; lia).
  apply Z.div_lt_upper_bound; [done|].
  destruct (decide (mx = 0)) as [->|Hne]; [lia|].
  destruct (Zdigits2_pos mx) as [[_ Hhi] Hd]; [lia|].
  rewrite <- Z.pow_add_r by lia.
  eapply Z.lt_le_trans; [exact Hhi|].
  apply Z.pow_le_mono_r; [lia|]. unfold fexp64 in HF. lia.
Qed.

Lemma double_mantissa (a b : Z) (P : Q) :
  a = 2 * b → (inject_Z b * (2 * P) == inject_Z a * P)%Q.
Proof. intros ->. rewrite inject_Z_mult. change (inject_Z 2) with 2%Q. ring. Qed.

(** [binary_round_aux] on a mantissa [mx] that places [y], at exponent
    [ex]: the result is [m2 * 2^E] for [E] the exponent of the last place
    and [m2] an integer nearest to [y] scaled to it, [y] itself if that is
    an integer. *)
Lemma binary_round_aux_spec (sx : bool) (mx ex : Z) (lx : location) (y : Q) :
  0 ≤ mx → located y mx lx →
  Z.max ex (fexp64 (Zdigits2 mx + ex)) ≤ 970 →
  ∃ m2 : Z, 0 ≤ m2 ∧
    (Qabs (inject_Z m2
           - y * pow2 (ex - Z.max ex (fexp64 (Zdigits2 mx + ex)))) <= 1 # 2)%Q ∧
    (∀ k, (y * pow2 (ex - Z.max ex (fexp64 (Zdigits2 mx + ex))) == inject_Z k)%Q
          → m2 = k) ∧
    SFfinite (binary_round_aux prec emax sx mx ex lx) ∧
    (SFval (binary_round_aux prec emax sx mx ex lx)
     == inject_Z (signed sx m2)
        * pow2 (Z.max ex (fexp64 (Zdigits2 mx + ex))))%Q.
Proof.
  intros Hm Hloc. set (E := Z.max ex (fexp64 (Zdigits2 mx + ex))). intros HE.
  unfold binary_round_aux.
  destruct (shr_fexp_spec mx ex lx y Hm Hloc) as (rec1 & -> & Hs1).
  fold E. fold E in Hs1. destruct Hs1 as (Hm1 & Hp1 & Hl1).
  destruct (loc_of_record_of_loc mx lx) as [_ Emx]. rewrite Emx in Hm1.
  replace (- (E - ex)) with (ex - E) in Hl1 by lia.
  destruct (round_nearest_even_spec _ _ _ Hl1) as (Hnear & Hbd & Hex).
  set (m2 := round_nearest_even (shr_m rec1) (loc_of_shr_record rec1)) in *.
  assert (shr_m rec1 < 2 ^ 53) as Hsmall.
  { rewrite Hm1. apply shifted_mantissa_small; [done|lia|lia]. }
  assert (0 ≤ m2) as Hm2 by lia.
  exists m2. split; [done|]. split; [done|]. split; [done|].
  assert (located (inject_Z m2) m2 loc_Exact) as Hl2 by (cbn; reflexivity).
  destruct (shr_fexp_spec m2 E loc_Exact _ Hm2 Hl2) as (rec2 & -> & Hs2).
  destruct Hs2 as (Hm3 & Hp3 & _). cbn [shr_record_of_loc shr_m] in Hm3.
  pose proof (fexp64_ge (Zdigits2 mx + ex)) as HgeE.
  destruct (decide (m2 = 2 ^ 53)) as [E2|Hne].
  - assert (Zdigits2 m2 = 54) as Hd.
    { apply Zdigits2_unique; [|lia]. rewrite E2. split; [|done]. lia. }
    rewrite Hd in *.
    replace (Z.max E (fexp64 (54 + E))) with (E + 1) in *
      by (unfold fexp64; lia).
    replace (E + 1 - E) with 1 in Hm3 by lia.
    rewrite E2 in Hm3. change (2 ^ 53 / 2 ^ 1) with (2 ^ 52) in Hm3.
    rewrite Hm3. change (2 ^ 52) with (Z.pos (2 ^ 52)).
    cbv iota.
    replace (E + 1 <=? emax - prec) with true
      by (symmetry; apply Z.leb_le; unfold emax, prec; lia).
    split; [exact I|]. cbn [SFval]. rewrite pow2_succ.
    apply double_mantissa. rewrite E2. by destruct sx.
  - assert (m2 < 2 ^ 53) as Hlt by lia.
    assert (Zdigits2 m2 ≤ 53) as Hd by (apply Zdigits2_le; lia).
    replace (Z.max E (fexp64 (Zdigits2 m2 + E))) with E in *
      by (unfold fexp64; lia).
    replace (E - E) with 0 in Hm3 by lia. rewrite Z.div_1_r in Hm3.
    rewrite Hm3. destruct m2 as [|p|p]; [| |lia].
    + split; [exact I|]. cbn [SFval].
      destruct sx; cbn [signed]; change (inject_Z _) with 0%Q; ring.
    + replace (E <=? emax - prec) with true
        by (symmetry; apply Z.leb_le; unfold emax, prec; lia).
      split; [exact I|]. cbn [SFval]. destruct sx; cbn [signed]; reflexivity.
Qed.

Lemma Qabs_scale (d P b : Q) :
  (0 < P)%Q → (Qabs d <= b)%Q → (Qabs (d * P) <= b * P)%Q.
Proof.
  intros HP Hd. rewrite Qabs_Qmult, (Qabs_pos P) by lra.
  apply Qmult_le_compat_r; [done|lra].
Qed.

Lemma pow2_half e : (pow2 (e - 1) == (1 # 2) * pow2 e)%Q.
Proof. rewrite pow2_pred. field. Qed.

Lemma inject_Z_pow2 (m : Z) (e : Z) :
  0 < m → (pow2 (Zdigits2 m - 1) <= inject_Z m)%Q.
Proof.
  intros Hm. destruct (Zdigits2_pos m Hm) as [[Hlo _] Hd].
  rewrite pow2_Z by lia. by rewrite <- Zle_Qle.
Qed.

Lemma digits_exp_le (mx ex K : Z) :
  0 < mx → (inject_Z mx * pow2 ex < pow2 K)%Q → Zdigits2 mx + ex ≤ K.
Proof.
  intros Hm Hlt. pose proof (inject_Z_pow2 mx ex Hm) as Hlo.
  pose proof (pow2_pos ex) as Hp.
  assert (pow2 (Zdigits2 mx - 1 + ex) < pow2 K)%Q as H.
  { rewrite pow2_add. eapply Qle_lt_trans; [|exact Hlt].
    apply Qmult_le_compat_r; [done|lra]. }
  apply pow2_lt_inv in H. lia.
Qed.

Lemma located_ge (y : Q) (m : Z) (l : location) :
  located y m l → (inject_Z m <= y)%Q.
Proof. destruct l; cbn; [intros ->; lra|intros [[? ?] _]; lra]. Qed.

#[global] Instance Qsigned_proper (s : bool) : Proper (Qeq ==> Qeq) (Qsigned s).
Proof. intros a b E. destruct s; cbn [Qsigned]; by rewrite E. Qed.

Lemma signed_Q (s : bool) (m : Z) :
  (inject_Z (signed s m) == Qsigned s (inject_Z m))%Q.
Proof. destruct s; cbn [signed Qsigned]; [by rewrite inject_Z_opp|reflexivity]. Qed.

Lemma Qsigned_abs (s : bool) (a b : Q) :
  (Qabs (Qsigned s a - Qsigned s b) == Qabs (a - b))%Q.
Proof.
  destruct s; cbn [Qsigned]; [|reflexivity].
  assert ((- a - - b)%Q == (- (a - b))%Q)%Q as Hq by ring.
  rewrite Hq; clear Hq. apply Qabs_opp.
Qed.

(** The result of [binary_round_aux] is within half a unit in the last
    place of the value it rounds, for a value below [2^K]. *)
Lemma binary_round_aux_error (sx : bool) (mx ex : Z) (lx : location) (y : Q) (K : Z) :
  0 ≤ mx → located y mx lx → (y * pow2 ex < pow2 K)%Q →
  ex ≤ fexp64 K → -1074 ≤ K ≤ 1023 →
  SFfinite (binary_round_aux prec emax sx mx ex lx) ∧
  (Qabs (SFval (binary_round_aux prec emax sx mx ex lx)
         - Qsigned sx (y * pow2 ex)) <= pow2 (fexp64 K - 1))%Q.
Proof.
  intros Hm Hloc Hlt Hex HK.
  set (E := Z.max ex (fexp64 (Zdigits2 mx + ex))).
  assert (E ≤ fexp64 K) as HE.
  { unfold E. apply Z.max_lub; [done|]. apply fexp64_mono.
    destruct (decide (mx = 0)) as [->|Hne].
    - cbn. unfold fexp64 in Hex. lia.
    - apply digits_exp_le; [lia|]. eapply Qle_lt_trans; [|exact Hlt].
      apply Qmult_le_compat_r; [by eapply located_ge|].
      pose proof (pow2_pos ex). lra. }
  destruct (binary_round_aux_spec sx mx ex lx y Hm Hloc)
    as (m2 & Hm2 & Hnear & _ & Hfin & Hval).
  { fold E. unfold fexp64 in HE. lia. }
  fold E in Hnear, Hval. split; [done|].
  rewrite Hval, signed_Q.
  assert ((y * pow2 ex)%Q == (y * pow2 (ex - E) * pow2 E)%Q)%Q as Hq by (rewrite <- Qmult_assoc, <- pow2_add; by replace (ex - E + E) with ex by lia).
  rewrite Hq; clear Hq.
  assert (Qsigned sx (inject_Z m2) * pow2 E
          == Qsigned sx (inject_Z m2 * pow2 E))%Q as Hq by (destruct sx; cbn [Qsigned]; ring).
  rewrite Hq; clear Hq.
  rewrite Qsigned_abs.
  assert ((inject_Z m2 * pow2 E - y * pow2 (ex - E) * pow2 E)%Q == ((inject_Z m2 - y * pow2 (ex - E)) * pow2 E)%Q)%Q as Hq by ring.
  rewrite Hq; clear Hq.
  eapply Qle_trans; [apply Qabs_scale; [apply pow2_pos|exact Hnear]|].
  rewrite <- pow2_half. apply pow2_le. lia.
Qed.

Lemma iter_xO (mx d : positive) :
  Z.pos (Pos.iter xO mx d) = Z.pos mx * 2 ^ Z.pos d.
Proof.
  induction d as [|d IH] using Pos.peano_ind.
  - cbn. lia.
  - rewrite Pos.iter_succ, Pos2Z.inj_succ, Z.pow_succ_r by lia.
    rewrite Pos2Z.inj_xO, IH. lia.
Qed.

Lemma shl_align_spec (mx : positive) (ex ex' : Z) :
  snd (shl_align mx ex ex') = Z.min ex ex' ∧
  Z.pos (fst (shl_align mx ex ex'))
  = Z.pos mx * 2 ^ (ex - Z.min ex ex').
Proof.
  unfold shl_align. destruct (ex' - ex) as [|d|d] eqn:E; cbn [fst snd].
  - replace (Z.min ex ex') with ex by lia.
    replace (ex - ex) with 0 by lia. lia.
  - replace (Z.min ex ex') with ex by lia.
    replace (ex - ex) with 0 by lia. lia.
  - replace (Z.min ex ex') with ex' by lia.
    replace (ex - ex') with (Z.pos d) by lia. split; [done|apply iter_xO].
Qed.

Lemma Zdigits2_shift (m k : Z) :
  0 < m → 0 ≤ k → Zdigits2 (m * 2 ^ k) = Zdigits2 m + k.
Proof.
  intros Hm Hk. destruct (Zdigits2_pos m Hm) as [[Hlo Hhi] Hd].
  assert (0 < 2 ^ k) by (apply Z.pow_pos_nonneg; lia).
  apply Zdigits2_unique; [|lia]. split.
  - replace (Zdigits2 m + k - 1) with (Zdigits2 m - 1 + k) by lia.
    rewrite Z.pow_add_r by lia. nia.
  - rewrite Z.pow_add_r by lia. nia.
Qed.

(** [binary_round] and [binary_normalize] round a mantissa at any
    exponent. *)
Lemma binary_round_spec (sx : bool) (mx : positive) (ex : Z) :
  fexp64 (Zdigits2 (Z.pos mx) + ex) ≤ 970 →
  ∃ m2 : Z, 0 ≤ m2 ∧
    (Qabs (inject_Z m2 - inject_Z (Z.pos mx)
           * pow2 (ex - fexp64 (Zdigits2 (Z.pos mx) + ex))) <= 1 # 2)%Q ∧
    (∀ k, (inject_Z (Z.pos mx) * pow2 (ex - fexp64 (Zdigits2 (Z.pos mx) + ex))
           == inject_Z k)%Q → m2 = k) ∧
    SFfinite (binary_round prec emax sx mx ex) ∧
    (SFval (binary_round prec emax sx mx ex)
     == inject_Z (signed sx m2) * pow2 (fexp64 (Zdigits2 (Z.pos mx) + ex)))%Q.
Proof.
  set (E := fexp64 (Zdigits2 (Z.pos mx) + ex)). intros HE.
  unfold binary_round. rewrite fexp_eq.
  change (Z.pos (digits2_pos mx)) with (Zdigits2 (Z.pos mx)). fold E.
  destruct (shl_align_spec mx ex E) as [Hez Hmz].
  destruct (shl_align mx ex E) as [mz ez]. cbn [fst snd] in Hez, Hmz.
  assert (Zdigits2 (Z.pos mz) + ez = Zdigits2 (Z.pos mx) + ex) as Hd.
  { rewrite Hmz, Zdigits2_shift by lia. lia. }
  assert (Z.max ez (fexp64 (Zdigits2 (Z.pos mz) + ez)) = E) as HE'.
  { rewrite Hd. fold E. lia. }
  destruct (binary_round_aux_spec sx (Z.pos mz) ez loc_Exact (inject_Z (Z.pos mz)))
    as (m2 & Hm2 & Hnear & Hexact & Hfin & Hval); [lia|cbn; reflexivity|lia|].
  rewrite HE' in Hnear, Hexact, Hval.
  assert (inject_Z (Z.pos mz) * pow2 (ez - E)
          == inject_Z (Z.pos mx) * pow2 (ex - E))%Q as Hy.
  { rewrite Hmz, inject_Z_mult, <- pow2_Z by lia.
    rewrite <- Qmult_assoc, <- pow2_add.
    by replace (ex - Z.min ex E + (ez - E)) with (ex - E) by lia. }
  exists m2. split; [done|]. split; [by rewrite <- Hy|].
  split; [|done]. intros k Hk. apply Hexact. by rewrite Hy.
Qed.

Lemma binary_normalize_spec (m e : Z) (sz : bool) :
  fexp64 (Zdigits2 m + e) ≤ 970 →
  ∃ m2 : Z,
    (Qabs (inject_Z m2 - inject_Z m
           * pow2 (e - fexp64 (Zdigits2 m + e))) <= 1 # 2)%Q ∧
    (∀ k, (inject_Z m * pow2 (e - fexp64 (Zdigits2 m + e))
           == inject_Z k)%Q → m2 = k) ∧
    SFfinite (binary_normalize prec emax m e sz) ∧
    (SFval (binary_normalize prec emax m e sz)
     == inject_Z m2 * pow2 (fexp64 (Zdigits2 m + e)))%Q.
Proof.
  intros HE. destruct m as [|p|p]; cbn [binary_normalize].
  - exists 0. split; [|split; [|split; [exact I|]]].
    + assert ((inject_Z 0 - inject_Z 0 * pow2 (e - fexp64 (Zdigits2 0 + e)))%Q == 0%Q)%Q as Hq by ring.
  rewrite Hq; clear Hq. done.
    + intros k Hk. apply inject_Z_injective. rewrite <- Hk. ring.
    + cbn [SFval]. ring.
  - destruct (binary_round_spec false p e HE)
      as (m2 & Hm2 & Hnear & Hexact & Hfin & Hval).
    exists m2. done.
  - change (Zdigits2 (Z.neg p)) with (Zdigits2 (Z.pos p)) in *.
    destruct (binary_round_spec true p e HE)
      as (m2 & Hm2 & Hnear & Hexact & Hfin & Hval).
    set (E := fexp64 (Zdigits2 (Z.pos p) + e)) in *.
    exists (- m2). split; [|split; [|split; [done|]]].
    + change (Z.neg p) with (- Z.pos p). rewrite !inject_Z_opp.
      assert ((- inject_Z m2 - - inject_Z (Z.pos p) * pow2 (e - E))%Q == (- (inject_Z m2 - inject_Z (Z.pos p) * pow2 (e - E)))%Q)%Q as Hq by ring.
  rewrite Hq; clear Hq.
      by rewrite Qabs_opp.
    + intros k Hk. rewrite (Hexact (- k)); [lia|].
      change (Z.neg p) with (- Z.pos p) in Hk. rewrite inject_Z_opp in *.
      rewrite <- Hk. ring.
    + exact Hval.
Qed.

(** *** The operations on finite doubles *)

Lemma SFval_finite (s : bool) (m : positive) (e : Z) :
  (SFval (S754_finite s m e) == Qsigned s (inject_Z (Z.pos m) * pow2 e))%Q.
Proof.
  destruct s; cbn [SFval Qsigned]; [|reflexivity].
  change (Z.neg m) with (- Z.pos m). rewrite inject_Z_opp. ring.
Qed.

Lemma Qabs_Qsigned (s : bool) (q : Q) : (Qabs (Qsigned s q) == Qabs q)%Q.
Proof. destruct s; cbn [Qsigned]; [apply Qabs_opp|reflexivity]. Qed.

Lemma mantissa_pos (m : positive) (e : Z) : (0 < inject_Z (Z.pos m) * pow2 e)%Q.
Proof.
  apply Qmult_lt_0_compat; [|apply pow2_pos].
  change 0%Q with (inject_Z 0). rewrite <- Zlt_Qlt. lia.
Qed.

Lemma SFval_abs (s : bool) (m : positive) (e : Z) :
  (Qabs (SFval (S754_finite s m e)) == inject_Z (Z.pos m) * pow2 e)%Q.
Proof.
  rewrite SFval_finite, Qabs_Qsigned. apply Qabs_pos.
  pose proof (mantissa_pos m e). lra.
Qed.

(** A valid double below [2^K] has an exponent of at most [fexp64 K]. *)
Lemma valid_exp_le (f : spec_float) (K : Z) :
  valid_binary f = true → (Qabs (SFval f) < pow2 K)%Q →
  SFexp_le f (fexp64 K).
Proof.
  destruct f as [| | |s m e]; try done. unfold valid_binary. cbn [SpecFloat.valid_binary SFexp_le].
  unfold bounded, canonical_mantissa. rewrite fexp_eq.
  intros [Hc _]%andb_prop Hlt. apply Z.eqb_eq in Hc.
  rewrite SFval_abs in Hlt. apply digits_exp_le in Hlt; [|lia].
  rewrite <- Hc. apply fexp64_mono. exact Hlt.
Qed.

Lemma Qabs_0_le_pow2 (e : Z) : (Qabs 0 <= pow2 e)%Q.
Proof. change (Qabs 0) with 0%Q. pose proof (pow2_pos e). lra. Qed.

(** [binary_normalize]: the error, and the integers it keeps. *)
Lemma digits_exp_le_abs (m e K : Z) :
  (Qabs (inject_Z m * pow2 e) < pow2 K)%Q → -1074 ≤ K →
  fexp64 (Zdigits2 m + e) ≤ fexp64 K ∨ m = 0.
Proof.
  intros Hlt HK. destruct m as [|p|p]; [by right| |]; left; apply fexp64_mono.
  - apply digits_exp_le; [lia|].
    rewrite Qabs_pos in Hlt; [done|]. pose proof (mantissa_pos p e). lra.
  - change (Zdigits2 (Z.neg p)) with (Zdigits2 (Z.pos p)).
    apply digits_exp_le; [lia|].
    change (Z.neg p) with (- Z.pos p) in Hlt. rewrite inject_Z_opp in Hlt.
    assert (- inject_Z (Z.pos p) * pow2 e == - (inject_Z (Z.pos p) * pow2 e))%Q
      as Hq by ring.
    rewrite Hq, Qabs_opp, Qabs_pos in Hlt; [done|].
    pose proof (mantissa_pos p e). lra.
Qed.

Lemma binary_normalize_error (m e : Z) (sz : bool) (K : Z) :
  (Qabs (inject_Z m * pow2 e) < pow2 K)%Q → -1074 ≤ K ≤ 1023 →
  SFfinite (binary_normalize prec emax m e sz) ∧
  (Qabs (SFval (binary_normalize prec emax m e sz) - inject_Z m * pow2 e)
   <= pow2 (fexp64 K - 1))%Q.
Proof.
  intros Hlt HK.
  destruct (digits_exp_le_abs m e K Hlt) as [HE| ->]; [lia| |].
  - set (E := fexp64 (Zdigits2 m + e)) in *.
    destruct (binary_normalize_spec m e sz) as (m2 & Hnear & _ & Hfin & Hval).
    { fold E. unfold fexp64 in HE. lia. }
    fold E in Hnear, Hval. split; [done|]. rewrite Hval.
    assert (inject_Z m2 * pow2 E - inject_Z m * pow2 e
            == (inject_Z m2 - inject_Z m * pow2 (e - E)) * pow2 E)%Q as Hq.
    { assert (pow2 e == pow2 (e - E) * pow2 E)%Q as Hp
        by (rewrite <- pow2_add; by replace (e - E + E) with e by lia).
      rewrite Hp. ring. }
    rewrite Hq.
    eapply Qle_trans; [apply Qabs_scale; [apply pow2_pos|exact Hnear]|].
    rewrite <- pow2_half. apply pow2_le. lia.
  - cbn [binary_normalize SFval]. split; [exact I|].
    assert (0 - inject_Z 0 * pow2 e == 0)%Q as Hq by ring. rewrite Hq.
    apply Qabs_0_le_pow2.
Qed.

Lemma binary_normalize_exact (m e : Z) (sz : bool) (k : Z) :
  (inject_Z m * pow2 e == inject_Z k)%Q → Z.abs k < 2 ^ 53 →
  SFfinite (binary_normalize prec emax m e sz) ∧
  (SFval (binary_normalize prec emax m e sz) == inject_Z k)%Q.
Proof.
  intros Hk Hlt.
  assert (Qabs (inject_Z m * pow2 e) < pow2 53)%Q as Habs.
  { rewrite Hk, pow2_Z by lia. apply Qabs_Qlt_condition.
    change (- inject_Z (2 ^ 53))%Q with (inject_Z (- 2 ^ 53)).
    rewrite <- !Zlt_Qlt. lia. }
  destruct (digits_exp_le_abs m e 53 Habs) as [HE| ->]; [lia| |].
  - set (E := fexp64 (Zdigits2 m + e)) in *.
    assert (E ≤ 0) as HE0 by (unfold fexp64 in HE; lia).
    destruct (binary_normalize_spec m e sz) as (m2 & _ & Hexact & Hfin & Hval).
    { fold E. lia. }
    fold E in Hexact, Hval. split; [done|]. rewrite Hval.
    assert (inject_Z m * pow2 (e - E) == inject_Z (k * 2 ^ (- E)))%Q as Hy.
    { rewrite inject_Z_mult, <- pow2_Z, <- Hk by lia.
      rewrite <- Qmult_assoc, <- pow2_add. by replace (e + - E) with (e - E) by lia. }
    rewrite (Hexact _ Hy), inject_Z_mult, <- pow2_Z by lia.
    rewrite <- Qmult_assoc, <- pow2_add.
    replace (- E + E) with 0 by lia. rewrite pow2_0. ring.
  - cbn [binary_normalize SFval]. split; [exact I|].
    rewrite <- Hk. ring.
Qed.

(** Addition and subtraction align the two mantissas, add them and
    normalize. *)
Lemma aligned_value (s : bool) (m : positive) (e ez : Z) :
  ez ≤ e →
  (inject_Z (cond_Zopp s (Z.pos (fst (shl_align m e ez)))) * pow2 ez
   == SFval (S754_finite s m e))%Q.
Proof.
  intros Hle. destruct (shl_align_spec m e ez) as [_ Hm]. rewrite Hm.
  replace (Z.min e ez) with ez by lia. rewrite SFval_finite.
  assert (inject_Z (Z.pos m * 2 ^ (e - ez)) * pow2 ez
          == inject_Z (Z.pos m) * pow2 e)%Q as Hq.
  { rewrite inject_Z_mult, <- pow2_Z by lia.
    rewrite <- Qmult_assoc, <- pow2_add. by replace (e - ez + ez) with e by lia. }
  destruct s; cbn [cond_Zopp Qsigned]; [|exact Hq].
  rewrite inject_Z_opp, <- Hq. ring.
Qed.

Lemma SFadd_error (x y : spec_float) (K : Z) :
  SFfinite x → SFfinite y →
  (Qabs (SFval x + SFval y) < pow2 K)%Q → -1074 ≤ K ≤ 1023 →
  SFfinite (SFadd prec emax x y) ∧
  (Qabs (SFval (SFadd prec emax x y) - (SFval x + SFval y))
   <= pow2 (fexp64 K - 1))%Q.
Proof.
  intros Hx Hy Hlt HK.
  assert (∀ q : Q, (Qabs (q - q) <= pow2 (fexp64 K - 1))%Q) as Hzero.
  { intros q. assert (q - q == 0)%Q as Hq by ring. rewrite Hq.
    apply Qabs_0_le_pow2. }
  destruct x as [sx| | |sx mx ex]; try done;
    destruct y as [sy| | |sy my ey]; try done.
  - assert (SFval (SFadd prec emax (S754_zero sx) (S754_zero sy)) == 0)%Q as E
      by (by destruct sx, sy).
    split; [by destruct sx, sy|]. rewrite E. cbn [SFval]. apply (Hzero 0%Q).
  - cbn [SFadd]. split; [done|].
    assert (SFval (S754_zero sx) + SFval (S754_finite sy my ey)
            == SFval (S754_finite sy my ey))%Q as Hq by (cbn [SFval]; ring).
    rewrite Hq. apply Hzero.
  - cbn [SFadd]. split; [done|].
    assert (SFval (S754_finite sx mx ex) + SFval (S754_zero sy)
            == SFval (S754_finite sx mx ex))%Q as Hq by (cbn [SFval]; ring).
    rewrite Hq. apply Hzero.
  - cbn [SFadd]. set (ez := Z.min ex ey).
    set (M := cond_Zopp sx (Z.pos (fst (shl_align mx ex ez)))
              + cond_Zopp sy (Z.pos (fst (shl_align my ey ez)))).
    assert (inject_Z M * pow2 ez
            == SFval (S754_finite sx mx ex) + SFval (S754_finite sy my ey))%Q as HM.
    { unfold M. rewrite inject_Z_plus, Qmult_plus_distr_l.
      rewrite !aligned_value by lia. reflexivity. }
    rewrite <- HM in *. by apply binary_normalize_error.
Qed.

Lemma SFsub_exact (x y : spec_float) (k : Z) :
  SFfinite x → SFfinite y →
  (SFval x - SFval y == inject_Z k)%Q → Z.abs k < 2 ^ 53 →
  SFfinite (SFsub prec emax x y) ∧
  (SFval (SFsub prec emax x y) == inject_Z k)%Q.
Proof.
  intros Hx Hy Hk Hlt.
  destruct x as [sx| | |sx mx ex]; try done;
    destruct y as [sy| | |sy my ey]; try done.
  - assert (SFval (SFsub prec emax (S754_zero sx) (S754_zero sy)) == 0)%Q as E
      by (by destruct sx, sy).
    split; [by destruct sx, sy|]. rewrite E, <- Hk. cbn [SFval]. ring.
  - cbn [SFsub]. split; [done|]. rewrite <- Hk.
    rewrite !SFval_finite. cbn [SFval]. destruct sy; cbn [negb Qsigned]; ring.
  - cbn [SFsub]. split; [done|]. rewrite <- Hk. cbn [SFval]. ring.
  - cbn [SFsub]. set (ez := Z.min ex ey).
    set (M := cond_Zopp sx (Z.pos (fst (shl_align mx ex ez)))
              - cond_Zopp sy (Z.pos (fst (shl_align my ey ez)))).
    assert (inject_Z M * pow2 ez == inject_Z k)%Q as HM.
    { rewrite <- Hk. unfold M, Z.sub.
      rewrite inject_Z_plus, inject_Z_opp, Qmult_plus_distr_l.
      assert (∀ a b : Q, - a * b == - (a * b))%Q as Hopp by (intros; ring).
      rewrite Hopp, !aligned_value by lia. reflexivity. }
    by apply binary_normalize_exact.
Qed.

(** Multiplication rounds the product of the two mantissas. *)
Lemma SFmul_error (x y : spec_float) (a b K : Z) :
  SFfinite x → SFfinite y → SFexp_le x a → SFexp_le y b →
  a + b ≤ fexp64 K → (Qabs (SFval x * SFval y) < pow2 K)%Q →
  -1074 ≤ K ≤ 1023 →
  SFfinite (SFmul prec emax x y) ∧
  (Qabs (SFval (SFmul prec emax x y) - SFval x * SFval y)
   <= pow2 (fexp64 K - 1))%Q.
Proof.
  intros Hx Hy Ha Hb Hab Hlt HK.
  assert (∀ q : Q, (q == 0)%Q → (Qabs (0 - q) <= pow2 (fexp64 K - 1))%Q) as Hzero.
  { intros q Hq. rewrite Hq. apply Qabs_0_le_pow2. }
  destruct x as [sx| | |sx mx ex]; try done;
    destruct y as [sy| | |sy my ey]; try done;
    cbn [SFmul]; try (split; [exact I|]; apply Hzero; cbn [SFval]; ring).
  cbn [SFexp_le] in Ha, Hb.
  assert (SFval (S754_finite sx mx ex) * SFval (S754_finite sy my ey)
          == Qsigned (xorb sx sy)
               (inject_Z (Z.pos (mx * my)) * pow2 (ex + ey)))%Q as Hv.
  { rewrite !SFval_finite, Pos2Z.inj_mul, inject_Z_mult, pow2_add.
    destruct sx, sy; cbn [xorb Qsigned]; ring. }
  rewrite Hv in *. rewrite Qabs_Qsigned, Qabs_pos in Hlt
    by (pose proof (mantissa_pos (mx * my) (ex + ey)); lra).
  apply binary_round_aux_error; [lia|cbn; reflexivity|done|lia|done].
Qed.

(** Division: the quotient of the mantissas, with the place of the
    remainder. *)
Lemma Qdiv_half (r n : Z) :
  0 < n →
  ((inject_Z r / inject_Z n ?= 1 # 2)%Q = (2 * r ?= n)).
Proof.
  intros Hn.
  assert (0 < inject_Z n)%Q as HN
    by (change 0%Q with (inject_Z 0); by rewrite <- Zlt_Qlt).
  assert (inject_Z (2 * r) == 2 * inject_Z r)%Q as H2
    by (rewrite inject_Z_mult; reflexivity).
  assert (inject_Z r == inject_Z r / inject_Z n * inject_Z n)%Q as Hr
    by (field; lra).
  set (x := (inject_Z r / inject_Z n)%Q) in *.
  destruct (Z.compare_spec (2 * r) n) as [E|E|E].
  - apply Qeq_alt. apply (f_equal inject_Z) in E.
    assert (inject_Z (2 * r) == inject_Z n)%Q as E' by (by rewrite E).
    rewrite H2 in E'.
    assert ((2 * x - 1) * inject_Z n == 0)%Q as E0 by lra.
    apply Qmult_integral in E0 as [E0|E0]; lra.
  - apply Qlt_alt. rewrite Zlt_Qlt, H2 in E.
    destruct (Qlt_le_dec x (1 # 2)) as [|Hge]; [done|].
    assert ((1 # 2) * inject_Z n <= x * inject_Z n)%Q
      by (apply Qmult_le_compat_r; lra). lra.
  - apply Qgt_alt. rewrite Zlt_Qlt, H2 in E.
    destruct (Qlt_le_dec (1 # 2) x) as [|Hle]; [done|].
    assert (x * inject_Z n <= (1 # 2) * inject_Z n)%Q
      by (apply Qmult_le_compat_r; lra). lra.
Qed.

Lemma new_location_spec (n q r : Z) :
  0 < n → 0 ≤ r < n →
  located (inject_Z q + inject_Z r / inject_Z n) q (new_location n r).
Proof.
  intros Hn Hr.
  assert (0 < inject_Z n)%Q as HN
    by (change 0%Q with (inject_Z 0); by rewrite <- Zlt_Qlt).
  assert (∀ c, r ≠ 0 → (2 * r ?= n) = c →
            located (inject_Z q + inject_Z r / inject_Z n) q (loc_Inexact c)) as Hin.
  { intros c Hr0 Hc. cbn [located].
    assert (inject_Z r == inject_Z r / inject_Z n * inject_Z n)%Q as Hq
      by (field; lra).
    assert (0 < inject_Z r)%Q as Hr1
      by (change 0%Q with (inject_Z 0); rewrite <- Zlt_Qlt; lia).
    assert (inject_Z r < inject_Z n)%Q as Hr2 by (rewrite <- Zlt_Qlt; lia).
    set (x := (inject_Z r / inject_Z n)%Q) in *.
    assert (0 < x)%Q.
    { destruct (Qlt_le_dec 0 x) as [|Hle]; [done|].
      assert (x * inject_Z n <= 0 * inject_Z n)%Q
        by (apply Qmult_le_compat_r; lra). lra. }
    assert (x < 1)%Q.
    { destruct (Qlt_le_dec x 1) as [|Hge]; [done|].
      assert (1 * inject_Z n <= x * inject_Z n)%Q
        by (apply Qmult_le_compat_r; lra). lra. }
    split; [split; lra|]. rewrite <- Hc, <- (Qdiv_half r n Hn). fold x.
    destruct (Qcompare_spec x (1 # 2)) as [E|E|E];
      [apply (proj1 (Qeq_alt _ _))|apply (proj1 (Qlt_alt _ _))
      |apply (proj1 (Qgt_alt _ _))]; lra. }
  assert (r = 0 → located (inject_Z q + inject_Z r / inject_Z n) q loc_Exact)
    as Hex.
  { intros ->. cbn [located]. field. lra. }
  unfold new_location. destruct (Z.even n) eqn:En.
  - unfold new_location_even. destruct (Z.eqb_spec r 0) as [E|E]; [by apply Hex|].
    by apply Hin.
  - unfold new_location_odd. destruct (Z.eqb_spec r 0) as [E|E]; [by apply Hex|].
    apply Hin; [done|].
    assert (Z.odd n = true) as Ho by (by rewrite <- Z.negb_even, En).
    apply Z.odd_spec in Ho as [k Hk].
    destruct (Z.compare_spec (2 * r + 1) n), (Z.compare_spec (2 * r) n);
      (reflexivity || lia).
Qed.

(** The quotient of two positive doubles, the first no larger than the
    second, is within [2^-53] of the exact quotient. *)
Lemma SFdiv_core_spec (mx my : positive) (ex ey : Z) :
  ∃ q e' l, SFdiv_core_binary prec emax (Z.pos mx) ex (Z.pos my) ey = (q, e', l) ∧
    0 ≤ q ∧
    e' = Z.min (fexp64 (Zdigits2 (Z.pos mx) + ex - (Zdigits2 (Z.pos my) + ey)))
           (ex - ey) ∧
    ∃ y, located y q l ∧
      (y * pow2 e' == inject_Z (Z.pos mx) * pow2 ex
                       / (inject_Z (Z.pos my) * pow2 ey))%Q.
Proof.
  unfold SFdiv_core_binary. rewrite fexp_eq.
  set (e' := Z.min (fexp64 (Zdigits2 (Z.pos mx) + ex - (Zdigits2 (Z.pos my) + ey)))
               (ex - ey)).
  set (s := ex - ey - e').
  assert (0 ≤ s) as Hs by (unfold s, e'; lia).
  set (m' := match s with
             | 0 => Z.pos mx
             | Z.pos _ => Z.shiftl (Z.pos mx) s
             | Z.neg _ => 0
             end).
  assert (m' = Z.pos mx * 2 ^ s) as Hm'.
  { unfold m'. destruct s as [|p|p]; [lia| |lia].
    by rewrite Z.shiftl_mul_pow2. }
  assert (0 < 2 ^ s) by (apply Z.pow_pos_nonneg; lia).
  pose proof (Z_div_mod m' (Z.pos my) ltac:(lia)) as Hdiv.
  destruct (Z.div_eucl m' (Z.pos my)) as [q r]. destruct Hdiv as [Hqr Hr].
  exists q, e', (new_location (Z.pos my) r).
  split; [done|]. split; [nia|]. split; [done|].
  exists (inject_Z q + inject_Z r / inject_Z (Z.pos my))%Q.
  split; [apply new_location_spec; lia|].
  assert (0 < inject_Z (Z.pos my))%Q as HN
    by (change 0%Q with (inject_Z 0); by rewrite <- Zlt_Qlt).
  assert (inject_Z q + inject_Z r / inject_Z (Z.pos my)
          == inject_Z (Z.pos mx) * pow2 s / inject_Z (Z.pos my))%Q as Hy.
  { rewrite pow2_Z, <- inject_Z_mult, <- Hm', Hqr by done.
    rewrite inject_Z_plus, inject_Z_mult. field. lra. }
  rewrite Hy. pose proof (pow2_pos ey) as Hey.
  assert (pow2 ex == pow2 s * pow2 e' * pow2 ey)%Q as Hex.
  { rewrite <- !pow2_add. by replace (s + e' + ey) with ex by (unfold s; lia). }
  rewrite Hex. field. lra.
Qed.

Lemma mantissa_lt (m : positive) : (inject_Z (Z.pos m) < pow2 (Zdigits2 (Z.pos m)))%Q.
Proof.
  destruct (Zdigits2_pos (Z.pos m)) as [[_ Hhi] Hd]; [lia|].
  rewrite pow2_Z by lia. by rewrite <- Zlt_Qlt.
Qed.

Lemma SFdiv_error (x : spec_float) (my : positive) (ey : Z) :
  SFfinite x →
  (0 <= SFval x)%Q → (SFval x <= SFval (S754_finite false my ey))%Q →
  SFfinite (SFdiv prec emax x (S754_finite false my ey)) ∧
  (Qabs (SFval (SFdiv prec emax x (S754_finite false my ey))
         - SFval x / SFval (S754_finite false my ey)) <= pow2 (-53))%Q.
Proof.
  intros Hx H0 Hle. pose proof (mantissa_pos my ey) as Hy.
  destruct x as [sx| | |sx mx ex]; [|destruct Hx..|].
  - cbn [SFdiv SFval]. split; [exact I|].
    assert (∀ v : Q, (0 < v → 0 - 0 / v == 0)%Q) as Hq
      by (intros v Hv; field; lra).
    rewrite (Hq _ Hy). apply Qabs_0_le_pow2.
  - pose proof (mantissa_pos mx ex) as Hxp.
    destruct sx.
    { rewrite SFval_finite in H0. cbn [Qsigned] in H0. lra. }
    cbn [SFdiv SFval xorb] in *.
    destruct (SFdiv_core_spec mx my ex ey) as (q & e' & l & -> & Hq & He' & y & Hloc & Hval).
    pose proof (mantissa_lt my) as Hmy. pose proof (inject_Z_pow2 (Z.pos mx) 0 ltac:(lia)) as Hmx.
    assert (Zdigits2 (Z.pos mx) + ex - (Zdigits2 (Z.pos my) + ey) ≤ 0) as Hd.
    { assert (pow2 (Zdigits2 (Z.pos mx) - 1 + ex) < pow2 (Zdigits2 (Z.pos my) + ey))%Q as H.
      { rewrite !pow2_add. pose proof (pow2_pos ex). pose proof (pow2_pos ey).
        eapply Qle_lt_trans; [apply Qmult_le_compat_r; [exact Hmx|lra]|].
        eapply Qle_lt_trans; [exact Hle|].
        apply Qmult_lt_compat_r; [done|exact Hmy]. }
      apply pow2_lt_inv in H. lia. }
    assert (e' ≤ -53) as He53.
    { pose proof (fexp64_mono _ _ Hd) as Hf. change (fexp64 0) with (-53) in Hf. lia. }
    assert (y * pow2 e' <= 1)%Q as H1.
    { rewrite Hval. apply Qle_shift_div_r; [done|]. lra. }
    destruct (binary_round_aux_error false q e' l y 1) as [Hfin Herr];
      [done|done| |change (fexp64 1) with (-52); lia|lia|].
    { change (pow2 1) with 2%Q. lra. }
    split; [done|]. cbn [Qsigned] in Herr. rewrite Hval in Herr. exact Herr.
Qed.

(** *** Primitive floats *)

(** Integers below 2^53 are doubles, and so are their differences. *)
Lemma of_Z_value (z : Z) :
  0 ≤ z < 2 ^ 53 →
  finite (double_of_Z z) ∧ (val (double_of_Z z) == inject_Z z)%Q.
Proof.
  intros Hz. unfold finite, val. destruct z as [|p|p]; [done| |lia].
  cbn [double_of_Z]. rewrite of_uint63_spec, Uint63.of_Z_spec.
  rewrite Z.mod_small by (change Uint63.wB with (2 ^ 63); lia).
  apply binary_normalize_exact; [|lia].
  rewrite pow2_0. ring.
Qed.

Lemma sub_value (x y : float) (k : Z) :
  finite x → finite y → (val x - val y == inject_Z k)%Q →
  Z.abs k < 2 ^ 53 →
  finite (x - y) ∧ (val (x - y) == inject_Z k)%Q.
Proof.
  unfold finite, val. rewrite sub_spec. apply SFsub_exact.
Qed.

(** A sum, a product and a quotient are within half a unit in the last
    place of the exact ones. *)
Lemma add_error (x y : float) (K : Z) :
  finite x → finite y →
  (Qabs (val x + val y) < pow2 K)%Q → -1074 ≤ K ≤ 1023 →
  finite (x + y) ∧
  (Qabs (val (x + y) - (val x + val y)) <= pow2 (fexp64 K - 1))%Q.
Proof.
  unfold finite, val. rewrite add_spec. apply SFadd_error.
Qed.

Lemma mul_error (x y : float) (Kx Ky K : Z) :
  finite x → finite y →
  (Qabs (val x) < pow2 Kx)%Q → (Qabs (val y) < pow2 Ky)%Q →
  fexp64 Kx + fexp64 Ky ≤ fexp64 K →
  (Qabs (val x * val y) < pow2 K)%Q → -1074 ≤ K ≤ 1023 →
  finite (x * y) ∧
  (Qabs (val (x * y) - val x * val y) <= pow2 (fexp64 K - 1))%Q.
Proof.
  unfold finite, val. rewrite mul_spec. intros Hx Hy Hvx Hvy.
  apply SFmul_error; [done|done| |]; apply valid_exp_le;
    auto using Prim2SF_valid.
Qed.

Lemma positive_finite (f : spec_float) :
  SFfinite f → (0 < SFval f)%Q → ∃ m e, f = S754_finite false m e.
Proof.
  destruct f as [s| | |s m e]; [|done..|]; intros _ Hpos.
  - cbn [SFval] in Hpos. lra.
  - destruct s; [|by eauto].
    rewrite SFval_finite in Hpos. cbn [Qsigned] in Hpos.
    pose proof (mantissa_pos m e). lra.
Qed.

Lemma div_error (x y : float) :
  finite x → finite y →
  (0 <= val x)%Q → (val x <= val y)%Q → (0 < val y)%Q →
  finite (x / y) ∧
  (Qabs (val (x / y) - val x / val y) <= pow2 (-53))%Q.
Proof.
  unfold finite, val. rewrite div_spec. intros Hx Hy H0 Hle Hpos.
  destruct (positive_finite _ Hy Hpos) as (m & e & E). rewrite E in *.
  by apply SFdiv_error.
Qed.

(** [Math.round] of a double is floor (x + 1/2) of its value. *)
Lemma Qfloor_unique (x : Q) (k : Z) :
  (inject_Z k <= x)%Q → (x < inject_Z k + 1)%Q → Qfloor x = k.
Proof.
  intros Hlo Hhi. pose proof (Qfloor_le x) as H1. pose proof (Qlt_floor x) as H2.
  rewrite inject_Z_plus in H2. change (inject_Z 1) with 1%Q in H2.
  assert (inject_Z (Qfloor x) < inject_Z (k + 1))%Q as Ha
    by (rewrite inject_Z_plus; change (inject_Z 1) with 1%Q; lra).
  assert (inject_Z k < inject_Z (Qfloor x + 1))%Q as Hb
    by (rewrite inject_Z_plus; change (inject_Z 1) with 1%Q; lra).
  rewrite <- Zlt_Qlt in Ha, Hb. lia.
Qed.

Lemma round_half_up_floor (m e : Z) :
  round_half_up m e = Qfloor (inject_Z m * pow2 e + (1 # 2)).
Proof.
  unfold round_half_up. destruct (Z.leb_spec 0 e) as [He|He].
  - symmetry. apply Qfloor_unique;
      rewrite inject_Z_mult, <- pow2_Z by done; lra.
  - rewrite Zdiv_Qdiv. apply Qfloor_comp.
    rewrite inject_Z_plus, inject_Z_mult, <- !pow2_Z by lia.
    change (inject_Z 2) with 2%Q.
    replace (1 - e) with (- e + 1) by lia. rewrite pow2_succ.
    pose proof (pow2_pos (- e)) as Hp.
    assert (pow2 e == / pow2 (- e))%Q as Hinv.
    { pose proof (pow2_add e (- e)) as Ha. replace (e + - e) with 0 in Ha by lia.
      rewrite pow2_0 in Ha. pose proof (pow2_pos e).
      apply (Qmult_inj_r _ _ (pow2 (- e))); [lra|].
      rewrite <- Ha. field. lra. }
    rewrite Hinv. field. lra.
Qed.

Lemma round_value (x : float) :
  finite x → double_round x = IInt (Qfloor (val x + (1 # 2))).
Proof.
  unfold finite, val, double_round.
  destruct (Prim2SF x) as [s| | |s m e]; try done; intros _.
  cbn [SFval]. by rewrite round_half_up_floor.
Qed.

End Binary64Facts.

(** ** The palette on doubles *)
Module PaletteDoubles.
Import JS Palette Binary64 PaletteFacts Binary64Facts.

(** *** The error of one channel *)

Lemma inject_Z_range (z lo hi : Z) :
  lo ≤ z ≤ hi → (inject_Z lo <= inject_Z z <= inject_Z hi)%Q.
Proof. intros [? ?]. by rewrite <- !Zle_Qle. Qed.

(** The ratio [i / (numTeams - 1)] in doubles. *)
Lemma ratio_value (n i : Z) :
  2 ≤ n ≤ 2 ^ 32 → 0 ≤ i < n →
  finite (double_of_Z i / (double_of_Z n - double_of_Z 1)) ∧
  (Qabs (val (double_of_Z i / (double_of_Z n - double_of_Z 1))
         - inject_Z i / (inject_Z n - 1)) <= pow2 (-53))%Q.
Proof.
  intros Hn Hi.
  destruct (of_Z_value i) as [Fi Vi]; [lia|].
  destruct (of_Z_value n) as [Fn Vn]; [lia|].
  destruct (of_Z_value 1) as [F1 V1]; [lia|].
  destruct (sub_value (double_of_Z n) (double_of_Z 1) (n - 1)) as [Fd Vd];
    [done|done| |lia|].
  { rewrite Vn, V1. unfold Z.sub. rewrite inject_Z_plus. reflexivity. }
  assert (inject_Z (n - 1) == inject_Z n - 1)%Q as Hn1
    by (unfold Z.sub; rewrite inject_Z_plus; reflexivity).
  pose proof (inject_Z_range i 0 (n - 1) ltac:(lia)) as [Hi0 Hi1].
  pose proof (inject_Z_range (n - 1) 1 (n - 1) ltac:(lia)) as [Hn0 _].
  change (inject_Z 0) with 0%Q in Hi0. change (inject_Z 1) with 1%Q in Hn0.
  destruct (div_error (double_of_Z i) (double_of_Z n - double_of_Z 1))
    as [Fr Vr]; [done|done|lra|lra|lra|].
  split; [done|]. rewrite Vi, Vd, Hn1 in Vr. exact Vr.
Qed.

(** Rational arithmetic of the error of one channel. *)
Lemma channel_bounds (a b d q t : Q) :
  (0 <= a <= 255 → 0 <= b <= 255 → d == b - a → 0 <= t <= 1 →
   Qabs (q - t) <= pow2 (-53) →
   Qabs d < pow2 8 ∧ Qabs q < pow2 1 ∧ Qabs (d * q) < pow2 8 ∧
   ∀ p, Qabs (p - d * q) <= pow2 (-46) →
     Qabs (a + p) < pow2 8 ∧
     ∀ s, Qabs (s - (a + p)) <= pow2 (-46) →
       Qabs (s - (a + (b - a) * t)) <= pow2 (-44))%Q.
Proof.
  intros Ha Hb Hd Ht Hq.
  change (pow2 8) with 256%Q. change (pow2 1) with 2%Q.
  change (pow2 (-53)) with (1 # 9007199254740992)%Q in *.
  change (pow2 (-46)) with (1 # 70368744177664)%Q.
  change (pow2 (-44)) with (1 # 17592186044416)%Q.
  apply Qabs_Qle_condition in Hq as [Hq1 Hq2].
  set (e := (1 # 9007199254740992)%Q) in *.
  assert (0 <= a * (1 - t))%Q as P1 by (apply Qmult_le_0_compat; lra).
  assert (0 <= b * t)%Q as P2 by (apply Qmult_le_0_compat; lra).
  assert (0 <= (255 - a) * (1 - t))%Q as P3 by (apply Qmult_le_0_compat; lra).
  assert (0 <= (255 - b) * t)%Q as P4 by (apply Qmult_le_0_compat; lra).
  assert (0 <= (255 - d) * (e + (q - t)))%Q as P5 by (apply Qmult_le_0_compat; lra).
  assert (0 <= (255 + d) * (e - (q - t)))%Q as P6 by (apply Qmult_le_0_compat; lra).
  assert (0 <= (255 - d) * (e - (q - t)))%Q as P7 by (apply Qmult_le_0_compat; lra).
  assert (0 <= (255 + d) * (e + (q - t)))%Q as P8 by (apply Qmult_le_0_compat; lra).
  assert (d * t == (b - a) * t)%Q as Hdt by (by rewrite Hd).
  assert (d * q == d * t + d * (q - t))%Q as Hdq by ring.
  assert (e == 1 # 9007199254740992)%Q as He by reflexivity.
  clearbody e.
  split; [apply Qabs_Qlt_condition; lra|].
  split; [apply Qabs_Qlt_condition; lra|].
  split; [apply Qabs_Qlt_condition; split; lra|].
  intros p [Hp1 Hp2]%Qabs_Qle_condition.
  split; [apply Qabs_Qlt_condition; split; lra|].
  intros s [Hs1 Hs2]%Qabs_Qle_condition.
  apply Qabs_Qle_condition. split; lra.
Qed.

(** One channel in doubles: the rounding of a value within [2^-44] of the
    exact interpolation. *)
Lemma channel_value (lo hi : Z) (r : float) (t : Q) :
  0 ≤ lo ≤ 255 → 0 ≤ hi ≤ 255 → finite r → (0 <= t <= 1)%Q →
  (Qabs (val r - t) <= pow2 (-53))%Q →
  ∃ v : Q, channel float lo hi r = IInt (Qfloor (v + (1 # 2))) ∧
    (Qabs (v - (inject_Z lo + (inject_Z hi - inject_Z lo) * t))
     <= pow2 (-44))%Q.
Proof.
  intros Hlo Hhi Fr Ht Hr.
  destruct (of_Z_value lo) as [Fl Vl]; [lia|].
  destruct (of_Z_value hi) as [Fh Vh]; [lia|].
  destruct (sub_value (double_of_Z hi) (double_of_Z lo) (hi - lo)) as [Fd Vd];
    [done|done| |lia|].
  { rewrite Vh, Vl. unfold Z.sub. rewrite inject_Z_plus, inject_Z_opp. reflexivity. }
  assert (inject_Z (hi - lo) == inject_Z hi - inject_Z lo)%Q as Hd
    by (unfold Z.sub; rewrite inject_Z_plus, inject_Z_opp; reflexivity).
  rewrite Hd in Vd.
  pose proof (inject_Z_range lo 0 255 Hlo) as Ha.
  pose proof (inject_Z_range hi 0 255 Hhi) as Hb.
  change (inject_Z 0) with 0%Q in *. change (inject_Z 255) with 255%Q in *.
  destruct (channel_bounds _ _ _ _ _ Ha Hb Vd Ht Hr) as (B1 & B2 & B3 & B4).
  destruct (mul_error (double_of_Z hi - double_of_Z lo) r 8 1 8)
    as [Fp Vp]; [done|done|done|done|done|done|lia|].
  change (fexp64 8 - 1) with (-46) in Vp.
  destruct (B4 _ Vp) as [B5 B6].
  destruct (add_error (double_of_Z lo)
              ((double_of_Z hi - double_of_Z lo) * r) 8) as [Fs Vs];
    [done|done|by rewrite Vl|lia|].
  change (fexp64 8 - 1) with (-46) in Vs. rewrite Vl in Vs.
  exists (val (double_of_Z lo + (double_of_Z hi - double_of_Z lo) * r)).
  split; [|by apply B6].
  unfold channel. cbn [Math_round add mul sub of_Z double].
  by apply round_value.
Qed.

(** Within [2^-44] of a fraction of denominator at most [2^32], rounding
    gives an integer nearest to the fraction. *)
Lemma nearest_of_close (X N : Z) (v : Q) :
  0 < N ≤ 2 ^ 32 →
  (Qabs (v - inject_Z X / inject_Z N) <= pow2 (-44))%Q →
  nearest (Qfloor (v + (1 # 2))) (inject_Z X / inject_Z N).
Proof.
  intros HN Hv. pose proof (floor_half_nearest v) as Hc. unfold nearest in *.
  set (c := Qfloor (v + (1 # 2))) in *.
  change (pow2 (-44)) with (1 # 17592186044416)%Q in Hv.
  apply Qabs_Qle_condition in Hv as [Hv1 Hv2].
  apply Qabs_Qle_condition in Hc as [Hc1 Hc2].
  pose proof (inject_Z_range N 1 (2 ^ 32) ltac:(lia)) as [HN1 HN2].
  change (inject_Z 1) with 1%Q in HN1.
  change (inject_Z (2 ^ 32)) with 4294967296%Q in HN2.
  assert (inject_Z X == inject_Z X / inject_Z N * inject_Z N)%Q as HX
    by (field; lra).
  set (x := (inject_Z X / inject_Z N)%Q) in *.
  set (δ := (inject_Z c - x)%Q).
  assert (δ * inject_Z N == inject_Z (c * N - X))%Q as Hδ.
  { unfold δ, Z.sub. rewrite inject_Z_plus, inject_Z_opp, inject_Z_mult. lra. }
  assert (δ * inject_Z N <= ((1 # 2) + (1 # 17592186044416)) * inject_Z N)%Q
    as U1 by (apply Qmult_le_compat_r; unfold δ; lra).
  assert ((- ((1 # 2) + (1 # 17592186044416))) * inject_Z N <= δ * inject_Z N)%Q
    as U2 by (apply Qmult_le_compat_r; unfold δ; lra).
  assert (inject_Z (2 * (c * N - X)) < inject_Z (N + 1))%Q as Z1.
  { rewrite inject_Z_mult, inject_Z_plus, <- Hδ.
    change (inject_Z 2) with 2%Q. change (inject_Z 1) with 1%Q. lra. }
  assert (inject_Z (- (N + 1)) < inject_Z (2 * (c * N - X)))%Q as Z2.
  { rewrite inject_Z_mult, inject_Z_opp, inject_Z_plus, <- Hδ.
    change (inject_Z 2) with 2%Q. change (inject_Z 1) with 1%Q. lra. }
  rewrite <- Zlt_Qlt in Z1, Z2.
  assert (inject_Z (2 * (c * N - X)) <= inject_Z N)%Q as W1
    by (rewrite <- Zle_Qle; lia).
  assert (inject_Z (- N) <= inject_Z (2 * (c * N - X)))%Q as W2
    by (rewrite <- Zle_Qle; lia).
  rewrite inject_Z_mult, <- Hδ in W1, W2. rewrite inject_Z_opp in W2.
  change (inject_Z 2) with 2%Q in *.
  fold δ. apply Qabs_Qle_condition. split.
  - destruct (Qlt_le_dec δ (- (1 # 2))) as [Hlt|]; [|done].
    assert (δ * inject_Z N < - (1 # 2) * inject_Z N)%Q
      by (apply Qmult_lt_compat_r; lra). lra.
  - destruct (Qlt_le_dec (1 # 2) δ) as [Hlt|]; [|done].
    assert ((1 # 2) * inject_Z N < δ * inject_Z N)%Q
      by (apply Qmult_lt_compat_r; lra). lra.
Qed.

Lemma lerp_fraction (lo hi i n : Z) :
  2 ≤ n →
  (lerp lo hi i n
   == inject_Z (lo * (n - 1) + (hi - lo) * i) / inject_Z (n - 1))%Q.
Proof.
  intros Hn. unfold lerp.
  pose proof (inject_Z_range (n - 1) 1 (n - 1) ltac:(lia)) as [Hn0 _].
  change (inject_Z 1) with 1%Q in Hn0.
  unfold Z.sub in *.
  rewrite !inject_Z_plus, !inject_Z_mult, !inject_Z_plus, !inject_Z_opp in *.
  change (inject_Z 1) with 1%Q in *. field. lra.
Qed.

Lemma ratio_range (n i : Z) :
  2 ≤ n → 0 ≤ i < n → (0 <= inject_Z i / (inject_Z n - 1) <= 1)%Q.
Proof.
  intros Hn Hi.
  pose proof (inject_Z_range i 0 (n - 1) ltac:(lia)) as [Hi0 Hi1].
  pose proof (inject_Z_range (n - 1) 1 (n - 1) ltac:(lia)) as [Hn0 _].
  unfold Z.sub in *. rewrite inject_Z_plus in *.
  change (inject_Z 0) with 0%Q in *. change (inject_Z 1) with 1%Q in *.
  change (inject_Z (- (1))) with (- (1))%Q in *.
  split.
  - apply Qle_shift_div_l; lra.
  - apply Qle_shift_div_r; lra.
Qed.

(** Each channel of [getTeamColors] in doubles is an integer nearest to the
    exact interpolation. *)
Lemma channel_nearest (lo hi n i : Z) :
  0 ≤ lo ≤ 255 → 0 ≤ hi ≤ 255 → 2 ≤ n ≤ 2 ^ 32 → 0 ≤ i < n →
  ∃ c : Z,
    channel float lo hi (div (of_Z i) (sub (of_Z n) (of_Z 1))) = IInt c ∧
    nearest c (lerp lo hi i n).
Proof.
  intros Hlo Hhi Hn Hi.
  destruct (ratio_value n i Hn Hi) as [Fr Vr].
  pose proof (ratio_range n i ltac:(lia) Hi) as Ht.
  destruct (channel_value lo hi _ _ Hlo Hhi Fr Ht Vr) as (v & Ec & Hv).
  exists (Qfloor (v + (1 # 2))). split; [exact Ec|].
  unfold nearest. rewrite lerp_fraction by lia.
  apply nearest_of_close; [lia|].
  rewrite <- lerp_fraction by lia. exact Hv.
Qed.

Lemma color_at_interpolates (n i : Z) :
  2 ≤ n ≤ 2 ^ 32 → 0 ≤ i < n → interpolates n i (color_at float n i).
Proof.
  intros Hn Hi. unfold color_at; cbv zeta.
  destruct (channel_nearest 52 231 n i) as (r & -> & Hr); [lia..|].
  destruct (channel_nearest 152 76 n i) as (g & -> & Hg); [lia..|].
  destruct (channel_nearest 219 60 n i) as (b & -> & Hb); [lia..|].
  by exists r, g, b.
Qed.

(** *** Nearest integers *)

Lemma nearest_integer (c k : Z) (x : Q) :
  (x == inject_Z k)%Q → nearest c x → c = k.
Proof.
  unfold nearest. intros E [H1 H2]%Qabs_Qle_condition. rewrite E in H1, H2.
  assert (inject_Z (c - k) < inject_Z 1)%Q as Ha.
  { unfold Z.sub. rewrite inject_Z_plus, inject_Z_opp.
    change (inject_Z 1) with 1%Q. lra. }
  assert (inject_Z (- (1)) < inject_Z (c - k))%Q as Hb.
  { unfold Z.sub. rewrite inject_Z_plus, !inject_Z_opp.
    change (inject_Z 1) with 1%Q. lra. }
  rewrite <- Zlt_Qlt in Ha, Hb. lia.
Qed.

Lemma nearest_mono (c d : Z) (x y : Q) :
  nearest c x → nearest d y → (x < y)%Q → c ≤ d.
Proof.
  unfold nearest. intros [H1 H2]%Qabs_Qle_condition [H3 H4]%Qabs_Qle_condition Hlt.
  assert (inject_Z (c - d) < inject_Z 1)%Q as Ha.
  { unfold Z.sub. rewrite inject_Z_plus, inject_Z_opp.
    change (inject_Z 1) with 1%Q. lra. }
  rewrite <- Zlt_Qlt in Ha. lia.
Qed.


(** *** The palette on doubles, for every team count an array can hold *)

Lemma lerp_first (lo hi n : Z) : 2 ≤ n → (lerp lo hi 0 n == inject_Z lo)%Q.
Proof.
  intros Hn. rewrite lerp_fraction by done.
  replace (lo * (n - 1) + (hi - lo) * 0) with (lo * (n - 1)) by lia.
  pose proof (inject_Z_range (n - 1) 1 (n - 1) ltac:(lia)) as [Hn0 _].
  change (inject_Z 1) with 1%Q in Hn0. rewrite inject_Z_mult. field. lra.
Qed.

Lemma lerp_last (lo hi n : Z) : 2 ≤ n → (lerp lo hi (n - 1) n == inject_Z hi)%Q.
Proof.
  intros Hn. rewrite lerp_fraction by done.
  replace (lo * (n - 1) + (hi - lo) * (n - 1)) with (hi * (n - 1)) by lia.
  pose proof (inject_Z_range (n - 1) 1 (n - 1) ltac:(lia)) as [Hn0 _].
  change (inject_Z 1) with 1%Q in Hn0. rewrite inject_Z_mult. field. lra.
Qed.

Lemma fraction_lt (a b N : Z) :
  0 < N → a < b → (inject_Z a / inject_Z N < inject_Z b / inject_Z N)%Q.
Proof.
  intros HN Hab. unfold Qdiv. apply Qmult_lt_compat_r.
  - apply Qinv_lt_0_compat. change 0%Q with (inject_Z 0). by rewrite <- Zlt_Qlt.
  - by rewrite <- Zlt_Qlt.
Qed.

Lemma lerp_up (lo hi n i j : Z) :
  2 ≤ n → lo < hi → i < j → (lerp lo hi i n < lerp lo hi j n)%Q.
Proof.
  intros Hn Hc Hij. rewrite !lerp_fraction by done.
  apply fraction_lt; [lia|nia].
Qed.

Lemma lerp_down (lo hi n i j : Z) :
  2 ≤ n → hi < lo → i < j → (lerp lo hi j n < lerp lo hi i n)%Q.
Proof.
  intros Hn Hc Hij. rewrite !lerp_fraction by done.
  apply fraction_lt; [lia|nia].
Qed.

Lemma color_at_first (n : Z) :
  2 ≤ n < 2 ^ 32 → color_at float n 0 = (IInt 52, IInt 152, IInt 219).
Proof.
  intros Hn.
  destruct (color_at_interpolates n 0) as (r & g & b & -> & Hr & Hg & Hb);
    [lia..|].
  apply (nearest_integer _ 52) in Hr; [|by apply lerp_first; lia].
  apply (nearest_integer _ 152) in Hg; [|by apply lerp_first; lia].
  apply (nearest_integer _ 219) in Hb; [|by apply lerp_first; lia].
  by subst.
Qed.

Lemma color_at_last (n : Z) :
  2 ≤ n < 2 ^ 32 → color_at float n (n - 1) = (IInt 231, IInt 76, IInt 60).
Proof.
  intros Hn.
  destruct (color_at_interpolates n (n - 1)) as (r & g & b & -> & Hr & Hg & Hb);
    [lia..|].
  apply (nearest_integer _ 231) in Hr; [|by apply lerp_last; lia].
  apply (nearest_integer _ 76) in Hg; [|by apply lerp_last; lia].
  apply (nearest_integer _ 60) in Hb; [|by apply lerp_last; lia].
  by subst.
Qed.

Lemma color_at_towards_red (n i j : Z) :
  2 ≤ n < 2 ^ 32 → 0 ≤ i ≤ j ∧ j < n →
  towards_red (color_at float n i) (color_at float n j).
Proof.
  intros Hn [[Hi Hij] Hj].
  destruct (color_at_interpolates n i) as (r & g & b & E & Hr & Hg & Hb);
    [lia..|].
  destruct (color_at_interpolates n j) as (r' & g' & b' & E' & Hr' & Hg' & Hb');
    [lia..|].
  exists r, g, b, r', g', b'. split; [done|]. split; [done|].
  destruct (decide (i = j)) as [->|Hne].
  - rewrite E in E'. simplify_eq. lia.
  - split; [|split].
    + eapply nearest_mono; [exact Hr|exact Hr'|]. apply lerp_up; lia.
    + eapply nearest_mono; [exact Hg'|exact Hg|]. apply lerp_down; lia.
    + eapply nearest_mono; [exact Hb'|exact Hb|]. apply lerp_down; lia.
Qed.

(** *** Where colours repeat *)

Lemma repeats_within_true (n : Z) (k : nat) (i : Z) :
  repeats_within n k i (color_at float n i) = true →
  ∃ j, i ≤ j < i + Z.of_nat k ∧ color_at float n j = color_at float n (j + 1).
Proof.
  revert i. induction k as [|k IH]; intros i; cbn [repeats_within]; [done|].
  cbv zeta. case_bool_decide as E.
  - intros _. exists i. split; [lia|done].
  - intros (j & Hj & Ej)%IH. exists j. split; [lia|done].
Qed.

Lemma repeats_within_false (n : Z) (k : nat) (i : Z) :
  repeats_within n k i (color_at float n i) = false →
  ∀ j, i ≤ j < i + Z.of_nat k → color_at float n j ≠ color_at float n (j + 1).
Proof.
  revert i. induction k as [|k IH]; intros i; cbn [repeats_within]; [lia|].
  cbv zeta. case_bool_decide as E; [done|]. intros Hk j Hj.
  destruct (decide (j = i)) as [->|]; [done|]. apply (IH (i + 1)); [done|lia].
Qed.

Lemma team_colors_lookup_nat (n : Z) (i : nat) (c : integral * integral * integral) :
  team_colors float n !! i = Some c →
  Z.of_nat i < n ∧ c = color_at float n (Z.of_nat i).
Proof.
  intros E. apply lookup_lt_Some in E as Hlt.
  rewrite team_colors_length in Hlt.
  rewrite <- (Nat2Z.id i), team_colors_lookup in E by lia.
  split; [lia|congruence].
Qed.

Lemma towards_red_antisym c d : towards_red c d → towards_red d c → c = d.
Proof.
  intros (r & g & b & r' & g' & b' & -> & -> & ? & ? & ?).
  intros (r1 & g1 & b1 & r2 & g2 & b2 & E1 & E2 & ? & ? & ?).
  simplify_eq. f_equal; [f_equal|]; f_equal; lia.
Qed.

Lemma repeat_neighbours (n i j : Z) :
  2 ≤ n < 2 ^ 32 → 0 ≤ i < j ∧ j < n →
  color_at float n i = color_at float n j →
  color_at float n i = color_at float n (i + 1).
Proof.
  intros Hn Hij E.
  pose proof (color_at_towards_red n i (i + 1) Hn ltac:(lia)) as H1.
  pose proof (color_at_towards_red n (i + 1) j Hn ltac:(lia)) as H2.
  rewrite <- E in H2. by apply towards_red_antisym.
Qed.

(** Along an ordered palette, a colour that comes twice comes twice in a
    row. *)
Lemma NoDup_no_repeat (n : Z) :
  2 ≤ n < 2 ^ 32 →
  NoDup (getTeamColors float n) ↔
  ∀ i, 0 ≤ i < n - 1 → color_at float n i ≠ color_at float n (i + 1).
Proof.
  intros Hn. split.
  - intros Hnd i Hi E.
    pose proof (getTeamColors_lookup float n i ltac:(lia)) as E1.
    pose proof (getTeamColors_lookup float n (i + 1) ltac:(lia)) as E2.
    rewrite <- E in E2.
    pose proof (NoDup_lookup _ _ _ _ Hnd E1 E2). lia.
  - intros Hstep. apply getTeamColors_NoDup.
    + intros c (i & Hc)%list_elem_of_lookup.
      apply team_colors_lookup_nat in Hc as [Hi ->].
      destruct (color_at_interpolates n (Z.of_nat i)) as (r & g & b & -> & _);
        [lia..|]. eauto.
    + apply NoDup_alt. intros i j c Ei Ej.
      apply team_colors_lookup_nat in Ei as [Hi ->].
      apply team_colors_lookup_nat in Ej as [Hj E].
      destruct (Nat.lt_trichotomy i j) as [Hlt|[->|Hlt]]; [|done|].
      * apply repeat_neighbours in E; [|done|lia].
        by apply Hstep in E; [|lia].
      * symmetry in E. apply repeat_neighbours in E; [|done|lia].
        by apply Hstep in E; [|lia].
Qed.

Lemma repeatsb_spec (n : Z) :
  2 ≤ n < 2 ^ 32 → repeatsb n = false ↔ NoDup (getTeamColors float n).
Proof.
  intros Hn. rewrite NoDup_no_repeat by done. unfold repeatsb. split.
  - intros H i Hi. apply (repeats_within_false _ _ _ H). lia.
  - intros H. destruct (repeats_within _ _ _ _) eqn:E; [|done].
    apply repeats_within_true in E as (j & Hj & Ej). by apply H in Ej; [|lia].
Qed.

(** A step between different colours raises red - green - blue. *)
Lemma spread_step (n i : Z) :
  2 ≤ n < 2 ^ 32 → 0 ≤ i < n - 1 →
  color_at float n i ≠ color_at float n (i + 1) →
  spread (color_at float n i) < spread (color_at float n (i + 1)).
Proof.
  intros Hn Hi Hne.
  destruct (color_at_towards_red n i (i + 1) Hn ltac:(lia))
    as (r & g & b & r' & g' & b' & E & E' & ? & ? & ?).
  rewrite E, E' in *. cbn [spread].
  destruct (decide (r - g - b < r' - g' - b')) as [|Hge]; [done|].
  destruct Hne. f_equal; [f_equal|]; f_equal; lia.
Qed.

Lemma spread_grows (n : Z) (k : nat) :
  2 ≤ n < 2 ^ 32 → NoDup (getTeamColors float n) → Z.of_nat k < n →
  spread (color_at float n 0) + Z.of_nat k ≤ spread (color_at float n (Z.of_nat k)).
Proof.
  intros Hn Hnd. rewrite NoDup_no_repeat in Hnd by done.
  induction k as [|k IH]; intros Hk; [change (Z.of_nat 0) with 0; lia|].
  assert (0 ≤ Z.of_nat k < n - 1) as Hk' by lia.
  pose proof (spread_step n (Z.of_nat k) Hn Hk' (Hnd _ Hk')) as Hs.
  replace (Z.of_nat (S k)) with (Z.of_nat k + 1) by lia.
  specialize (IH ltac:(lia)). lia.
Qed.

(** At most 415 colours lie between the two ends. *)
Lemma NoDup_at_most_415 (n : Z) :
  2 ≤ n < 2 ^ 32 → NoDup (getTeamColors float n) → n ≤ 415.
Proof.
  intros Hn Hnd.
  pose proof (spread_grows n (Z.to_nat (n - 1)) Hn Hnd ltac:(lia)) as H.
  rewrite Z2Nat.id in H by lia.
  rewrite color_at_first, color_at_last in H by done. cbn [spread] in H. lia.
Qed.

(** From 182 to 415 teams, the colours are distinct at the counts of
    [distinct_above_181] and at no other. *)
Lemma distinct_checked (n : Z) :
  182 ≤ n ≤ 415 → distinct_checkb n = true.
Proof.
  intros Hn. apply (forallb_seqZ distinct_checkb 182 234); [|lia].
  vm_compute. reflexivity.
Qed.

(** *** What the specification says of every team count *)




(** C5, amended. For every n from 2 to 2^32 - 1 the channels are ordered
    along the palette on doubles: red does not fall, green and blue do not
    rise; and the n colours are pairwise distinct exactly for n up to 181
    and for the fifteen larger counts of [distinct_above_181], the largest
    339. *)
Theorem getTeamColors_monotone_distinct (n : Z) :
  2 ≤ n < 2 ^ 32 →
  monotone float n ∧
  (NoDup (getTeamColors float n) ↔ n ≤ 181 ∨ n ∈ distinct_above_181).
Proof.
  intros Hn. split.
  { intros i j Hij. exists (color_at float n i), (color_at float n j).
    rewrite !team_colors_lookup by lia. split; [done|]. split; [done|].
    by apply color_at_towards_red. }
  destruct (decide (n ≤ 181)) as [Hle|Hgt].
  - split; [by left|]. intros _.
    apply (palette_okb_sound float n); [lia|].
    apply double_palette_checked. lia.
  - destruct (decide (n ≤ 415)) as [Hle|Hbig].
    + pose proof (distinct_checked n ltac:(lia)) as Hc.
      unfold distinct_checkb in Hc. apply Bool.eqb_prop in Hc.
      rewrite <- repeatsb_spec by done. split.
      * intros E. right. rewrite E in Hc. by apply bool_decide_eq_true in Hc.
      * intros [?|Hin]; [lia|].
        pose proof (bool_decide_eq_true_2 _ Hin) as Hin'.
        rewrite Hin' in Hc. by destruct (repeatsb n).
    + split.
      * intros Hnd%NoDup_at_most_415; [lia|done].
      * intros [?|Hin]; [lia|]. exfalso.
        unfold distinct_above_181 in Hin.
        repeat (apply elem_of_cons in Hin as [->|Hin]; [lia|]).
        by apply elem_of_nil in Hin.
Qed.

Lemma getTeamColors_monotone_distinct_witness :
  monotone float 10 ∧
  (NoDup (getTeamColors float 10) ↔ 10 ≤ 181 ∨ 10 ∈ distinct_above_181).
Proof. apply (getTeamColors_monotone_distinct 10). lia. Defined.

End PaletteDoubles.
